(** * salt/runners/manage.py: fleet status, version audit and key rotation

    A shallow embedding of the runner module [salt.runners.manage]
    (Python 2) and the properties of its operations [status], [down],
    [versions] and [key_regen].

    Python values are modelled as follows.
    - [str] is [string]; comparison of two [str] values is byte-wise
      lexicographic, which is [String.compare].
    - a [dict] is a [gmap]; iterating a dict visits its keys in the order
      of [map_to_list], an order the code never relies on.
    - a [set] is a [gset]; [sorted] is a merge sort for the string order.
    - side effects (rendering, printing, spawned processes, the files
      under the pki directory) are recorded in an explicit [world]. *)

From Stdlib Require Import ZArith Ascii.
From stdpp Require Import base option list sorting strings gmap.

Local Open Scope Z_scope.

(** ** Python builtins used by the module *)

(** [sorted(xs)] on a collection of [str]. *)
Definition sorted (xs : list string) : list string := merge_sort String.le xs.

(** Iterating a dict yields its keys. *)
Definition dict_keys {K V} `{Countable K} (d : gmap K V) : list K :=
  (map_to_list d).*1.

(** [set(xs)] for an iterable of [str]. *)
Definition py_set (xs : list string) : gset string := list_to_set xs.

(** [cmp(a, b)] on two [str] values: -1, 0 or 1. *)
Definition int_of_comparison (c : comparison) : Z :=
  match c with
  | Lt => -1
  | Eq => 0
  | Gt => 1
  end.

Definition cmp (a b : string) : Z := int_of_comparison (String.compare a b).

(** [s.split(sep)] for a one-character separator. *)
Fixpoint split (sep : ascii) (s : string) : list string :=
  match s with
  | EmptyString => [EmptyString]
  | String c s' =>
      if decide (c = sep) then EmptyString :: split sep s'
      else match split sep s' with
           | [] => [String c EmptyString]
           | w :: ws => String c w :: ws
           end
  end.

(** [sep.join(xs)]. *)
Definition join (sep : string) (xs : list string) : string := String.concat sep xs.

(** ** Exceptions *)

Inductive exn :=
| KeyError
| OSError (filename : string).

Inductive result (A : Type) :=
| Ok (a : A)
| Raise (e : exn).
Arguments Ok {A} a.
Arguments Raise {A} e.

Definition bind {A B} (r : result A) (k : A → result B) : result B :=
  match r with
  | Ok a => k a
  | Raise e => Raise e
  end.

(** [for x in xs: s = body(x, s)], stopping at the first exception. *)
Fixpoint for_each {A S} (xs : list A) (body : A → S → result S) (s : S) : result S :=
  match xs with
  | [] => Ok s
  | x :: xs' => bind (body x s) (for_each xs' body)
  end.

(** [d[k]] raises [KeyError] when the key is missing. *)
Definition getitem {K V} `{Countable K} (d : gmap K V) (k : K) : result V :=
  match d !! k with
  | Some v => Ok v
  | None => Raise KeyError
  end.

(** ** The world outside the module *)

(** The tree below a directory: the names of its non-directory entries and
    its subdirectories. Symbolic links to directories are listed by
    [os.walk] among [dirs], which the module ignores, and are not
    descended into; they are left out. *)
Local Unset Elimination Schemes.
Inductive dirtree :=
| Dir (files : list string) (subdirs : list (string * dirtree)).
Local Set Elimination Schemes.

(** What [salt.output.display_output] was asked to render. *)
Inductive value :=
| VDict (d : gmap string (list string))
| VStr (s : string).

Record world := World {
  pki : dirtree;                 (* the tree at __opts__['pki_dir'] *)
  removes : list string;         (* paths passed to os.remove, in order *)
  spawned : list (list string);  (* argument vectors of subprocess.call *)
  displayed : list value;        (* values handed to display_output *)
  stdout : list string           (* strings printed *)
}.

Definition display_output (v : value) (w : world) : world :=
  World (pki w) (removes w) (spawned w) (displayed w ++ [v]) (stdout w).

Definition print (s : string) (w : world) : world :=
  World (pki w) (removes w) (spawned w) (displayed w) (stdout w ++ [s]).

(** ** status *)

(** [minions] is the reply of [client.cmd('*', 'test.ping', ...)] and
    [keys_minions] is [key.list_keys()['minions']]. *)
Definition status {V} (minions : gmap string V) (keys_minions : list string)
    (output : bool) (w : world) : gmap string (list string) * world :=
  let ret : gmap string (list string) := ∅ in
  let ret := <["up" := sorted (dict_keys minions)]> ret in
  let ret := <["down" := sorted (elements (py_set keys_minions ∖ py_set (dict_keys minions)))]> ret in
  let w := if output then display_output (VDict ret) w else w in
  (ret, w).

(** ** down *)

(** [for x in xs: body(x)] over the world, stopping at the first
    exception. *)
Fixpoint for_each_in {A} (xs : list A) (body : A → world → result unit * world)
    (w : world) : result unit * world :=
  match xs with
  | [] => (Ok tt, w)
  | x :: xs' =>
      match body x w with
      | (Ok _, w') => for_each_in xs' body w'
      | (Raise e, w') => (Raise e, w')
      end
  end.

Section down.
(** What running a command gives: the exit status of the process, or
    nothing when the command cannot be executed. *)
Variable run : list string → option Z.

(** [subprocess.call(argv)] runs the command, waits for it and returns its
    exit status; when the command cannot be executed it raises [OSError].
    The call is logged either way; what the command itself does to the key
    store is outside this module. *)
Definition subprocess_call (argv : list string) (w : world) : result Z * world :=
  (match run argv with
   | Some status => Ok status
   | None => Raise (OSError (default "" (head argv)))
   end,
   World (pki w) (removes w) (spawned w ++ [argv]) (displayed w) (stdout w)).

(** The body of [for minion in ret]; the exit status is dropped. *)
Definition down_step (removekeys : bool) (minion : string) (w : world)
    : result unit * world :=
  if removekeys then
    let '(r, w) := subprocess_call ["salt-key"; "-qyd"; minion] w in
    (bind r (λ _, Ok tt), w)
  else (Ok tt, display_output (VStr minion) w).

Definition down {V} (removekeys : bool) (minions : gmap string V)
    (keys_minions : list string) (w : world) : result (list string) * world :=
  let '(st, w) := status minions keys_minions false w in
  let ret := default [] (st !! "down") in
  let '(r, w) := for_each_in ret (down_step removekeys) w in
  (bind r (λ _, Ok ret), w).

End down.

(** ** versions *)

Definition labels : gmap Z string :=
  {[ -1 := "Minion requires update";
     0 := "Up to date";
     1 := "Minion newer than master" ]}.

(** The normalisation applied to [salt.__version__] (lines 147-151) and to
    every reported version (lines 153-157). *)
Definition normalized_version (version : string) : string :=
  let comps := split "-"%char version in
  if decide (length comps = 3%nat) then join "-" (take 2 comps) else version.

(** The body of [for minion in minions]. *)
Definition classify_minion (minions : gmap string string) (master_version : string)
    (minion : string) (version_status : gmap Z (list string))
    : result (gmap Z (list string)) :=
  bind (getitem minions minion) (λ reported,
    let minion_version := normalized_version reported in
    let ver_diff := cmp minion_version master_version in
    let version_status :=
      if decide (ver_diff ∈ dom version_status) then version_status
      else <[ver_diff := []]> version_status in
    bind (getitem version_status ver_diff) (λ bucket,
      Ok (<[ver_diff := bucket ++ [minion]]> version_status))).

(** [ret.setdefault(label, []).append(minion)]. *)
Definition setdefault_append (label minion : string)
    (ret : gmap string (list string)) : gmap string (list string) :=
  <[label := default [] (ret !! label) ++ [minion]]> ret.

(** The body of [for key in version_status]. *)
Definition label_bucket (version_status : gmap Z (list string)) (key : Z)
    (ret : gmap string (list string)) : result (gmap string (list string)) :=
  bind (getitem version_status key) (λ bucket,
    for_each (sorted bucket)
      (λ minion ret,
         bind (getitem labels key) (λ label, Ok (setdefault_append label minion ret)))
      ret).

(** [salt_version] is [salt.__version__] and [minions] is the reply of
    [client.cmd('*', 'test.version', ...)]. *)
Definition versions (salt_version : string) (minions : gmap string string)
    (w : world) : result (gmap string (list string)) * world :=
  let master_version := normalized_version salt_version in
  let ret :=
    bind (for_each (dict_keys minions) (classify_minion minions master_version) ∅)
      (λ version_status,
         for_each (dict_keys version_status) (label_bucket version_status) ∅) in
  match ret with
  | Ok ret => (Ok ret, display_output (VDict ret) w)
  | Raise e => (Raise e, w)
  end.

(** ** key_regen *)

(** [os.path.join(a, b)] of posixpath. *)
Definition startswith_slash (s : string) : bool :=
  match s with
  | String c _ => bool_decide (c = "/"%char)
  | EmptyString => false
  end.

Fixpoint endswith_slash (s : string) : bool :=
  match s with
  | EmptyString => false
  | String c EmptyString => bool_decide (c = "/"%char)
  | String _ s' => endswith_slash s'
  end.

Definition os_path_join (a b : string) : string :=
  if startswith_slash b then b
  else if bool_decide (a = "") || endswith_slash a then a +:+ b
  else a +:+ "/" +:+ b.

Definition nl : string := String (ascii_of_nat 10) EmptyString.

Definition msg : string :=
  "The minion and master keys have been deleted.  Restart the Salt" +:+ nl +:+
  "Master within the next 60 seconds!!!" +:+ nl +:+ nl +:+
  "Wait for the minions to reconnect.  Once the minions reconnect" +:+ nl +:+
  "the new keys will appear in pending and will need to be re-" +:+ nl +:+
  "accepted by running:" +:+ nl +:+
  "    salt-key -A" +:+ nl +:+ nl +:+
  "Be advised that minions not currently connected to the master" +:+ nl +:+
  "will not be able to reconnect and may require manual" +:+ nl +:+
  "regeneration via a local call to" +:+ nl +:+
  "    salt-call saltutil.regen_keys".

Section key_regen.
(** The paths on which [os.remove] fails, for instance for lack of
    permission. *)
Variable remove_fails : string → bool.

(** [os.remove(os.path.join(root, fn_))] in the directory [root] whose
    regular files are [cur]: the entry disappears from the directory, or
    [os.error] (which is [OSError]) is raised. *)
Definition os_remove (root fn_ : string) (cur : list string)
    : result unit * list string :=
  let path := os_path_join root fn_ in
  if remove_fails path then (Raise (OSError path), cur)
  else if bool_decide (fn_ ∈ cur) then (Ok tt, filter (λ x, x ≠ fn_) cur)
  else (Raise (OSError path), cur).

(** [try: ... except os.error: pass]. *)
Definition except_os_error (r : result unit) : result unit :=
  match r with
  | Raise (OSError _) => Ok tt
  | _ => r
  end.

(** [for fn_ in files], over the directory content [cur] and the log of
    [os.remove] calls. *)
Fixpoint remove_files (root : string) (files : list string)
    (cur log : list string) : result unit * list string * list string :=
  match files with
  | [] => (Ok tt, cur, log)
  | fn_ :: files' =>
      let path := os_path_join root fn_ in
      let '(r, cur') := os_remove root fn_ cur in
      match except_os_error r with
      | Ok _ => remove_files root files' cur' (log ++ [path])
      | Raise e => (Raise e, cur', log ++ [path])
      end
  end.

(** The recursion of [os.walk] into the subdirectories of [top], in
    listing order; [walk] is the walk of one subdirectory. *)
Definition walk_subdirs
    (walk : string → dirtree → result unit * dirtree * list string) (top : string)
    : list (string * dirtree) → result unit * list (string * dirtree) * list string :=
  fix descend ds :=
    match ds with
    | [] => (Ok tt, [], [])
    | (name, d) :: ds' =>
        let '(r1, d', log1) := walk (os_path_join top name) d in
        match r1 with
        | Raise e => (Raise e, (name, d') :: ds', log1)
        | Ok _ =>
            let '(r2, ds'', log2) := descend ds' in
            (r2, (name, d') :: ds'', log1 ++ log2)
        end
    end.

(** [for root, dirs, files in os.walk(top)] with the loop body above:
    top-down, each directory read when it is reached. The result is the
    tree as the loop leaves it and the [os.remove] calls made. *)
Fixpoint walk_remove (top : string) (t : dirtree)
    : result unit * dirtree * list string :=
  match t with
  | Dir files subdirs =>
      let '(r, files', log) := remove_files top files files [] in
      match r with
      | Raise e => (Raise e, Dir files' subdirs, log)
      | Ok _ =>
          let '(r', subdirs', log') := walk_subdirs walk_remove top subdirs in
          (r', Dir files' subdirs', log ++ log')
      end
  end.

(** [minions] is the reply of [client.cmd('*', 'saltutil.regen_keys')] and
    [pki_dir] is [__opts__['pki_dir']]. The function returns [None]. *)
Definition key_regen {V} (minions : gmap string V) (pki_dir : string)
    (w : world) : result unit * world :=
  let '(r, t, log) := walk_remove pki_dir (pki w) in
  let w := World t (removes w ++ log) (spawned w) (displayed w) (stdout w) in
  match r with
  | Ok _ => (Ok tt, print msg w)
  | Raise e => (Raise e, w)
  end.

End key_regen.

(** ** Vocabulary of the statements *)

(** The paths of the regular files of a tree, in the order of the walk. *)
Fixpoint tree_files (top : string) (t : dirtree) : list string :=
  match t with
  | Dir files subdirs =>
      (os_path_join top <$> files) ++
      concat ((λ '(name, d), tree_files (os_path_join top name) d) <$> subdirs)
  end.

(** The paths of the directories of a tree, the top included. *)
Fixpoint tree_dirs (top : string) (t : dirtree) : list string :=
  match t with
  | Dir files subdirs =>
      top :: concat ((λ '(name, d), tree_dirs (os_path_join top name) d) <$> subdirs)
  end.

(** The tree with every regular file taken out. *)
Fixpoint skeleton (t : dirtree) : dirtree :=
  match t with
  | Dir files subdirs => Dir [] ((λ '(name, d), (name, skeleton d)) <$> subdirs)
  end.

(** A separator-free string. *)
Fixpoint sep_free (sep : ascii) (s : string) : Prop :=
  match s with
  | EmptyString => True
  | String c s' => c ≠ sep ∧ sep_free sep s'
  end.

(** The label of the bucket for the outcome of a three-way comparison. *)
Definition bucket_label (c : comparison) : string :=
  match c with
  | Lt => "Minion requires update"
  | Eq => "Up to date"
  | Gt => "Minion newer than master"
  end.

(** The ordering named by the specification, kept apart from the code:
    versions are compared component by component, the components being the
    dot-separated fields read as decimal numbers. *)
Definition field_number (s : string) : N :=
  foldl (λ acc c, match Ascii.is_nat c with
                  | Some d => (10 * acc + N.of_nat d)%N
                  | None => acc
                  end) 0%N (String.list_ascii_of_string s).

Fixpoint compare_fields (xs ys : list N) : comparison :=
  match xs, ys with
  | [], [] => Eq
  | [], _ :: _ => Lt
  | _ :: _, [] => Gt
  | x :: xs', y :: ys' =>
      match N.compare x y with
      | Eq => compare_fields xs' ys'
      | c => c
      end
  end.

Definition numeric_version_compare (a b : string) : comparison :=
  compare_fields (field_number <$> split "."%char a) (field_number <$> split "."%char b).

(** A dict entry after the elements of [b] were appended to it, the
    entry being created by the first append. *)
Definition extend {A} (o : option (list A)) (b : list A) : option (list A) :=
  match b with
  | [] => o
  | _ :: _ => Some (default [] o ++ b)
  end.

Definition append_bucket (label : string) (b : list string)
    (ret : gmap string (list string)) : gmap string (list string) :=
  match b with
  | [] => ret
  | _ :: _ => <[label := default [] (ret !! label) ++ b]> ret
  end.

(** The agents among [ks] whose normalised version compares as [c] with
    the normalised version of the controller. *)
Definition compares_as (minions : gmap string string) (master_version : string)
    (c : comparison) (minion : string) : Prop :=
  (λ reported, String.compare (normalized_version reported) master_version)
    <$> minions !! minion = Some c.

Global Instance compares_as_dec minions master_version c minion :
  Decision (compares_as minions master_version c minion).
Proof. unfold compares_as. apply _. Defined.

Definition agents_comparing (minions : gmap string string) (master_version : string)
    (c : comparison) (ks : list string) : list string :=
  filter (compares_as minions master_version c) ks.

(** The two lists of [status]. *)
Definition status_up {V} (minions : gmap string V) : list string :=
  sorted (dict_keys minions).
Definition status_down {V} (minions : gmap string V) (registered : list string)
    : list string :=
  sorted (elements (py_set registered ∖ py_set (dict_keys minions))).

(** ** up *)

Definition up {V} (minions : gmap string V) (keys_minions : list string)
    (w : world) : list string * world :=
  let '(st, w) := status minions keys_minions false w in
  let ret := default [] (st !! "up") in
  (ret, foldl (λ w minion, display_output (VStr minion) w) w ret).

(** ** bootstrap *)

Definition dquote : string := String (ascii_of_nat 34) EmptyString.

(** The command line handed to the remote shell. *)
Definition bootstrap_command (version script : string) : string :=
  "python -c 'import urllib; print urllib.urlopen(" +:+ dquote +:+ script +:+
  dquote +:+ ").read()' | sh -s -- git " +:+ version.

Definition bootstrap_argv (version script host : string) : list string :=
  ["ssh"; "root@" +:+ host; bootstrap_command version script].

(** [version], [script] and [hosts] default to [bootstrap_version],
    [bootstrap_script] and [bootstrap_hosts]. The function returns
    [None]. *)
Definition bootstrap_version : string := "develop".
Definition bootstrap_script : string := "http://bootstrap.saltstack.org".
Definition bootstrap_hosts : string := "".

Definition bootstrap (run : list string → option Z)
    (version script hosts : string) (w : world) : result unit * world :=
  for_each_in (split ","%char hosts)
    (λ host w,
       let '(r, w) := subprocess_call run (bootstrap_argv version script host) w in
       (bind r (λ _, Ok tt), w))
    w.

(** ** versions, the iteration orders made explicit *)

(** [versions] up to the rendering, with the order in which
    [for minion in minions] visits the reply and the order in which
    [for key in version_status] visits the outcomes given from outside. *)
Definition versions_in_order (salt_version : string) (minions : gmap string string)
    (ks : list string) (order : gmap Z (list string) → list Z)
    : result (gmap string (list string)) :=
  let master_version := normalized_version salt_version in
  bind (for_each ks (classify_minion minions master_version) ∅)
    (λ version_status,
       for_each (order version_status) (label_bucket version_status) ∅).

(** ** More vocabulary *)

(** The commands of a loop that are reached: those up to the first that
    cannot be executed, that one included. *)
Fixpoint attempted (run : list string → option Z) (argvs : list (list string))
    : list (list string) :=
  match argvs with
  | [] => []
  | argv :: argvs' =>
      match run argv with
      | Some _ => argv :: attempted run argvs'
      | None => [argv]
      end
  end.

(** Whether all the commands can be executed. *)
Definition all_run (run : list string → option Z) (argvs : list (list string)) : bool :=
  forallb (λ argv, bool_decide (is_Some (run argv))) argvs.

(** The key deletion request for an agent. *)
Definition salt_key_delete (minion : string) : list string :=
  ["salt-key"; "-qyd"; minion].

(** [a] starts [s]. *)
Definition starts (a s : string) : Prop := ∃ rest, s = a +:+ rest.

(** The number of occurrences of a character. *)
Fixpoint count_char (ch : ascii) (s : string) : nat :=
  match s with
  | EmptyString => 0
  | String c s' => (if decide (c = ch) then 1 else 0) + count_char ch s'
  end.

(** The name of a directory entry: not empty and without a slash. *)
Definition entry_name (name : string) : Prop :=
  name ≠ "" ∧ sep_free "/"%char name.

(** A tree whose entries all have such names. *)
Fixpoint entry_names (t : dirtree) : Prop :=
  match t with
  | Dir files subdirs =>
      Forall entry_name files ∧
      Forall id ((λ '(name, d), entry_name name ∧ entry_names d) <$> subdirs)
  end.


(** * Properties *)

(** ** The string order and [sorted] *)

Lemma sorted_Permutation (xs : list string) : sorted xs ≡ₚ xs.
Proof. apply merge_sort_Permutation. Qed.

Lemma sorted_StronglySorted (xs : list string) : StronglySorted String.le (sorted xs).
Proof. apply (StronglySorted_merge_sort _). Qed.

Lemma elem_of_sorted (x : string) (xs : list string) : x ∈ sorted xs ↔ x ∈ xs.
Proof. by rewrite sorted_Permutation. Qed.

Lemma NoDup_sorted (xs : list string) : NoDup (sorted xs) ↔ NoDup xs.
Proof. by rewrite sorted_Permutation. Qed.

(** [sorted] does not depend on the order of its input. *)
Lemma sorted_proper (xs ys : list string) : xs ≡ₚ ys → sorted xs = sorted ys.
Proof.
  intros Hp. apply (StronglySorted_unique String.le);
    [apply sorted_StronglySorted..|].
  by rewrite !sorted_Permutation.
Qed.

Lemma sorted_id (xs : list string) : StronglySorted String.le xs → sorted xs = xs.
Proof.
  intros Hs. apply (StronglySorted_unique String.le);
    [apply sorted_StronglySorted|done|apply sorted_Permutation].
Qed.

(** ** Dict keys *)

Lemma NoDup_dict_keys {K V} `{Countable K} (d : gmap K V) : NoDup (dict_keys d).
Proof. apply NoDup_fst_map_to_list. Qed.

Lemma elem_of_dict_keys {K V} `{Countable K} (d : gmap K V) (k : K) :
  k ∈ dict_keys d ↔ k ∈ dom d.
Proof.
  unfold dict_keys. rewrite elem_of_dom, list_elem_of_fmap. split.
  - intros [[k' v] [-> Hin]]. apply elem_of_map_to_list in Hin. by exists v.
  - intros [v Hv]. exists (k, v). split; [done|]. by apply elem_of_map_to_list.
Qed.

Lemma py_set_dict_keys {V} (d : gmap string V) : py_set (dict_keys d) = dom d.
Proof.
  apply set_eq. intros k. unfold py_set.
  by rewrite elem_of_list_to_set, elem_of_dict_keys.
Qed.

Lemma dict_keys_list_to_map {V} (xs : list (string * V)) :
  NoDup xs.*1 → dict_keys (list_to_map (M:=gmap string V) xs) ≡ₚ xs.*1.
Proof.
  intros Hnd. unfold dict_keys. by rewrite map_to_list_to_map.
Qed.

(** ** status *)

Example status_abc :
  (status (V:=bool) {[ "a" := true; "c" := true ]} ["c"; "b"; "a"] false
     (World (Dir [] []) [] [] [] [])).1
  = {[ "up" := ["a"; "c"]; "down" := ["b"] ]}.
Proof. vm_compute. reflexivity. Qed.

Section status_facts.
Context {V : Type}.
Implicit Types (minions : gmap string V) (registered : list string).

Lemma status_ret minions registered output w :
  (status minions registered output w).1 =
    {[ "up" := status_up minions; "down" := status_down minions registered ]}.
Proof.
  unfold status. simpl. apply map_eq. intros k.
  destruct (decide (k = "down")) as [->|Hd]; [by simplify_map_eq|].
  destruct (decide (k = "up")) as [->|Hu]; by simplify_map_eq.
Qed.

Lemma elem_of_status_up minions m : m ∈ status_up minions ↔ m ∈ dom minions.
Proof. unfold status_up. by rewrite elem_of_sorted, elem_of_dict_keys. Qed.

Lemma elem_of_status_down minions registered m :
  m ∈ status_down minions registered ↔ m ∈ registered ∧ m ∉ dom minions.
Proof.
  unfold status_down.
  rewrite elem_of_sorted, elem_of_elements, py_set_dict_keys.
  unfold py_set. set_solver.
Qed.

Lemma NoDup_status_up minions : NoDup (status_up minions).
Proof. apply NoDup_sorted, NoDup_dict_keys. Qed.

Lemma NoDup_status_down minions registered : NoDup (status_down minions registered).
Proof. apply NoDup_sorted, NoDup_elements. Qed.

Lemma status_get_down minions registered output w :
  default [] ((status minions registered output w).1 !! "down")
  = status_down minions registered.
Proof. rewrite status_ret. by simplify_map_eq. Qed.

(** C1: for every registered list and every reply, [status] returns the
    dict with the two keys 'up' and 'down'; 'up' is the responders in
    lexicographic order, 'down' is the registered identities that did not
    respond, in lexicographic order; no identity is in both, and a
    responder that is not registered is in 'up' and not in 'down'. *)
Theorem status_partition minions registered output w :
  ∃ up down : list string,
    (status minions registered output w).1 = {[ "up" := up; "down" := down ]} ∧
    up = sorted (elements (dom minions)) ∧
    down = sorted (elements (py_set registered ∖ dom minions)) ∧
    StronglySorted String.le up ∧ NoDup up ∧
    (∀ m, m ∈ up ↔ m ∈ dom minions) ∧
    StronglySorted String.le down ∧ NoDup down ∧
    (∀ m, m ∈ down ↔ m ∈ registered ∧ m ∉ dom minions) ∧
    (∀ m, ¬ (m ∈ up ∧ m ∈ down)) ∧
    (∀ m, m ∈ dom minions → m ∉ registered → m ∈ up ∧ m ∉ down).
Proof.
  exists (status_up minions), (status_down minions registered).
  split; [apply status_ret|].
  split.
  { apply sorted_proper, NoDup_Permutation;
      [apply NoDup_dict_keys|apply NoDup_elements|].
    intros m. by rewrite elem_of_dict_keys, elem_of_elements. }
  split; [unfold status_down; by rewrite py_set_dict_keys|].
  split; [apply sorted_StronglySorted|].
  split; [apply NoDup_status_up|].
  split; [apply elem_of_status_up|].
  split; [apply sorted_StronglySorted|].
  split; [apply NoDup_status_down|].
  split; [apply elem_of_status_down|].
  split.
  - intros m [Hu Hd]. apply elem_of_status_up in Hu.
    apply elem_of_status_down in Hd. tauto.
  - intros m Hm Hr. rewrite elem_of_status_up, elem_of_status_down. tauto.
Qed.

End status_facts.

(** The keys of the dict built from the replies, whatever order they
    arrived in. *)
Lemma dict_keys_arrivals {V} (arrivals1 arrivals2 : list (string * V)) :
  arrivals1 ≡ₚ arrivals2 →
  dict_keys (list_to_map (M:=gmap string V) arrivals1)
  ≡ₚ dict_keys (list_to_map (M:=gmap string V) arrivals2).
Proof.
  intros Hp. apply NoDup_Permutation; [apply NoDup_dict_keys..|].
  intros m. rewrite !elem_of_dict_keys, !dom_list_to_map_L, !elem_of_list_to_set.
  by rewrite Hp.
Qed.

(** C9: the partition is a function of the set of responders and of the
    set of registered identities alone: it is the same whatever the world
    it is computed in, whatever order the replies arrived in and the
    registered identities are listed in, and whatever order the dict and
    the set are iterated in. *)
Theorem status_order_independent {V} (arrivals1 arrivals2 : list (string * V))
    (registered1 registered2 : list string) (output1 output2 : bool) (w1 w2 : world) :
  arrivals1 ≡ₚ arrivals2 →
  registered1 ≡ₚ registered2 →
  (status (list_to_map arrivals1) registered1 output1 w1).1
  = (status (list_to_map arrivals2) registered2 output2 w2).1
  ∧ ∀ ks ds : list string,
      ks ≡ₚ dict_keys (list_to_map (M:=gmap string V) arrivals1) →
      ds ≡ₚ elements (py_set registered1 ∖ py_set ks) →
      (status (list_to_map arrivals1) registered1 output1 w1).1
      = {[ "up" := sorted ks; "down" := sorted ds ]}.
Proof.
  intros Ha Hr. rewrite !status_ret. split.
  - unfold status_up, status_down.
    rewrite (sorted_proper _ _ (dict_keys_arrivals _ _ Ha)).
    rewrite !py_set_dict_keys, !dom_list_to_map_L.
    assert (py_set registered1 = py_set registered2) as ->.
    { unfold py_set. apply set_eq. intros m. by rewrite !elem_of_list_to_set, Hr. }
    assert (list_to_set (C:=gset string) arrivals1.*1 = list_to_set arrivals2.*1) as ->; [|done].
    apply set_eq. intros m. by rewrite !elem_of_list_to_set, Ha.
  - intros ks ds Hks Hds. unfold status_up, status_down.
    rewrite (sorted_proper _ _ Hks), (sorted_proper _ _ Hds).
    assert (py_set ks = py_set (dict_keys (list_to_map (M:=gmap string V) arrivals1))) as ->; [|done].
    unfold py_set. apply set_eq. intros m. by rewrite !elem_of_list_to_set, Hks.
Qed.

Lemma status_order_independent_witness :
  (status (list_to_map [("a", true); ("c", true)]) ["a"; "b"; "c"] true
     (World (Dir [] []) [] [] [] [])).1
  = (status (list_to_map [("c", true); ("a", true)]) ["c"; "a"; "b"] false
       (World (Dir ["k"] []) [] [] [] [])).1.
Proof.
  refine (proj1 (status_order_independent
    [("a", true); ("c", true)] [("c", true); ("a", true)]
    ["a"; "b"; "c"] ["c"; "a"; "b"] true false
    (World (Dir [] []) [] [] [] []) (World (Dir ["k"] []) [] [] [] []) _ _)).
  - apply perm_swap.
  - symmetry. apply (Permutation_cons_append ["a"; "b"] "c").
Defined.

(** ** down *)

Lemma all_run_Forall run argvs :
  all_run run argvs = true ↔ Forall (λ argv, is_Some (run argv)) argvs.
Proof.
  unfold all_run. induction argvs as [|argv argvs IH]; simpl.
  - split; [constructor|done].
  - rewrite andb_true_iff, Forall_cons, IH, bool_decide_eq_true. done.
Qed.

Lemma attempted_all_run run argvs :
  all_run run argvs = true → attempted run argvs = argvs.
Proof.
  rewrite all_run_Forall. induction 1 as [|argv argvs [status Hrun] _ IH]; [done|].
  simpl. by rewrite Hrun, IH.
Qed.

(** A loop that runs one command for each element: the commands are run
    in order up to the first that cannot be executed, whose [OSError]
    leaves the loop. *)
Lemma spawn_loop {A} run (argv_of : A → list string) (cmd : string) (xs : list A) w :
  (∀ x, head (argv_of x) = Some cmd) →
  for_each_in xs
    (λ x w, let '(r, w) := subprocess_call run (argv_of x) w in
            (bind r (λ _, Ok tt), w)) w
  = (if all_run run (argv_of <$> xs) then Ok tt else Raise (OSError cmd),
     World (pki w) (removes w) (spawned w ++ attempted run (argv_of <$> xs))
       (displayed w) (stdout w)).
Proof.
  intros Hcmd. revert w. induction xs as [|x xs IH]; intros w.
  - simpl. rewrite app_nil_r. by destruct w.
  - cbn [for_each_in fmap list_fmap attempted]. unfold subprocess_call at 1, all_run.
    cbn [forallb]. fold (all_run run (argv_of <$> xs)).
    destruct (run (argv_of x)) as [status|] eqn:Hrun.
    + cbn [bind]. rewrite IH. simpl. by rewrite <-app_assoc.
    + cbn [bind]. rewrite Hcmd. done.
Qed.

Lemma down_removekeys_unfold {V} run (minions : gmap string V) registered w :
  down run true minions registered w
  = (if all_run run (salt_key_delete <$> status_down minions registered)
     then Ok (status_down minions registered) else Raise (OSError "salt-key"),
     World (pki w) (removes w)
       (spawned w ++ attempted run (salt_key_delete <$> status_down minions registered))
       (displayed w) (stdout w)).
Proof.
  unfold down. pose proof (status_get_down minions registered false w) as Hd.
  destruct (status minions registered false w) as [st w'] eqn:Hst.
  assert (w' = w) as -> by (unfold status in Hst; by simplify_eq).
  simpl in Hd. rewrite Hd.
  change (down_step run true)
    with (λ x w, let '(r, w) := subprocess_call run (salt_key_delete x) w in
                 (bind r (λ _ : Z, Ok tt), w)).
  rewrite (spawn_loop run salt_key_delete "salt-key") by done.
  by destruct (all_run _ _).
Qed.

(** With [removekeys=True], [down] does not go on after a request it
    cannot execute: when [salt-key] cannot be run for the agent b, the
    request for the agent c is not made and no list is returned. *)
Lemma down_removekeys_stops :
  ¬ (∀ (run : list string → option Z) (minions : gmap string bool)
       (registered : list string) (w : world),
       ∃ D : list string,
         default [] ((status minions registered false w).1 !! "down") = D ∧
         (down run true minions registered w).1 = Ok D ∧
         spawned (down run true minions registered w).2
         = spawned w ++ (salt_key_delete <$> D)).
Proof.
  intros Hclaim.
  destruct (Hclaim
              (λ argv, if bool_decide (argv = salt_key_delete "b") then None else Some 0)
              {[ "a" := true ]} ["a"; "b"; "c"] (World (Dir [] []) [] [] [] []))
    as (D & _ & Hret & _).
  vm_compute in Hret. discriminate Hret.
Qed.

(** C6, amended: with [removekeys=True], when the [salt-key] command can
    be executed for the agents of the down list of [status], [down] runs
    [salt-key -qyd <agent>] once for every agent of the list, in the order
    of the list and whatever exit status each of the commands reports,
    renders nothing, and returns the down list. *)
Theorem down_removekeys {V} (run : list string → option Z)
    (minions : gmap string V) (registered : list string) (w : world) :
  (∀ m, m ∈ default [] ((status minions registered false w).1 !! "down") →
        is_Some (run (salt_key_delete m))) →
  ∃ D : list string,
    default [] ((status minions registered false w).1 !! "down") = D ∧
    NoDup D ∧
    (down run true minions registered w).1 = Ok D ∧
    spawned (down run true minions registered w).2
    = spawned w ++ ((λ minion, ["salt-key"; "-qyd"; minion]) <$> D) ∧
    displayed (down run true minions registered w).2 = displayed w.
Proof.
  rewrite status_get_down. intros Hrun.
  exists (status_down minions registered).
  split; [done|]. split; [apply NoDup_status_down|].
  assert (all_run run (salt_key_delete <$> status_down minions registered) = true)
    as Hall.
  { apply all_run_Forall, Forall_fmap, Forall_forall. intros m Hm. by apply Hrun. }
  rewrite down_removekeys_unfold, Hall, (attempted_all_run _ _ Hall). done.
Qed.

Lemma down_removekeys_witness :
  ∃ D : list string,
    default [] ((status (V:=bool) {[ "a" := true ]} ["a"; "b"; "c"] false
                   (World (Dir [] []) [] [] [] [])).1 !! "down") = D ∧
    NoDup D ∧
    (down (V:=bool) (λ _, Some 1) true {[ "a" := true ]} ["a"; "b"; "c"]
       (World (Dir [] []) [] [] [] [])).1 = Ok D ∧
    spawned (down (V:=bool) (λ _, Some 1) true {[ "a" := true ]} ["a"; "b"; "c"]
               (World (Dir [] []) [] [] [] [])).2
    = [] ++ ((λ minion, ["salt-key"; "-qyd"; minion]) <$> D) ∧
    displayed (down (V:=bool) (λ _, Some 1) true {[ "a" := true ]} ["a"; "b"; "c"]
                 (World (Dir [] []) [] [] [] [])).2 = [].
Proof.
  apply (down_removekeys (V:=bool) (λ _, Some 1) {[ "a" := true ]} ["a"; "b"; "c"]
           (World (Dir [] []) [] [] [] [])).
  intros m _. by exists 1.
Defined.

(** ** key_regen *)

Lemma dirtree_ind (P : dirtree → Prop) :
  (∀ files subdirs, Forall (λ nd, P nd.2) subdirs → P (Dir files subdirs)) →
  ∀ t, P t.
Proof.
  intros HDir. fix IH 1. intros [files subdirs]. apply HDir.
  induction subdirs as [|[name d] ds IHds]; constructor; [apply IH|exact IHds].
Qed.

Lemma filter_ext_elem_of {A} (P Q : A → Prop)
    `{∀ x, Decision (P x)} `{∀ x, Decision (Q x)} (l : list A) :
  (∀ x, x ∈ l → P x ↔ Q x) → filter P l = filter Q l.
Proof.
  induction l as [|a l IH]; intros HPQ; [done|].
  rewrite !filter_cons.
  destruct (decide (P a)) as [HP|HP], (decide (Q a)) as [HQ|HQ].
  - f_equal. apply IH. intros x Hx. apply HPQ. by right.
  - destruct HQ. apply HPQ; [by left|done].
  - destruct HP. apply HPQ; [by left|done].
  - apply IH. intros x Hx. apply HPQ. by right.
Qed.

Lemma filter_fmap_comm {A B} (f : A → B) (P : B → Prop)
    `{∀ y, Decision (P y)} (l : list A) :
  filter P (f <$> l) = f <$> filter (λ x, P (f x)) l.
Proof.
  induction l as [|a l IH]; [done|].
  rewrite fmap_cons, !filter_cons, IH. by destruct (decide (P (f a))).
Qed.

Lemma filter_concat {A} (P : A → Prop) `{∀ x, Decision (P x)} (ls : list (list A)) :
  filter P (concat ls) = concat (filter P <$> ls).
Proof.
  induction ls as [|l ls IH]; [done|]. simpl. by rewrite filter_app, IH.
Qed.



Section key_regen_facts.
Variable remove_fails : string → bool.

(** Every exception of [os.remove] is an [OSError], which the handler
    swallows. *)
Lemma except_os_error_os_remove root fn_ cur :
  except_os_error (os_remove remove_fails root fn_ cur).1 = Ok tt.
Proof.
  unfold os_remove. destruct (remove_fails _); [done|].
  by case_bool_decide.
Qed.

Lemma remove_files_spec root files cur log :
  remove_files remove_fails root files cur log
  = (Ok tt,
     filter (λ x, remove_fails (os_path_join root x) = true ∨ x ∉ files) cur,
     log ++ (os_path_join root <$> files)).
Proof.
  revert cur log. induction files as [|fn_ files IH]; intros cur log.
  - simpl. rewrite app_nil_r. do 2 f_equal.
    symmetry. erewrite (filter_ext_elem_of _ (λ _, True)).
    + induction cur as [|c cur IHc]; [done|]. by rewrite filter_cons_True, IHc.
    + intros x _. split; [done|]. intros _. right. apply not_elem_of_nil.
  - cbn [remove_files].
    pose proof (except_os_error_os_remove root fn_ cur) as Hexc.
    destruct (os_remove remove_fails root fn_ cur) as [r cur'] eqn:Hrm.
    simpl in Hexc. rewrite Hexc, IH, fmap_cons, <-app_assoc. simpl.
    do 2 f_equal. unfold os_remove in Hrm.
    destruct (remove_fails (os_path_join root fn_)) eqn:Hfail.
    + simplify_eq. apply filter_ext_elem_of. intros x _.
      rewrite not_elem_of_cons.
      destruct (decide (x = fn_)) as [->|Hne]; [rewrite Hfail|]; tauto.
    + case_bool_decide as Hin; simplify_eq.
      * rewrite list_filter_filter. apply filter_ext_elem_of. intros x _.
        rewrite not_elem_of_cons.
        destruct (decide (x = fn_)) as [->|Hne]; [rewrite Hfail|]; intuition congruence.
      * apply filter_ext_elem_of. intros x Hx. rewrite not_elem_of_cons.
        assert (x ≠ fn_) by congruence. tauto.
Qed.

(** The loop over the files of one directory: every file is handed to
    [os.remove], and those on which it does not fail are gone. *)
Lemma remove_files_all root files :
  remove_files remove_fails root files files []
  = (Ok tt,
     filter (λ x, remove_fails (os_path_join root x) = true) files,
     os_path_join root <$> files).
Proof.
  rewrite remove_files_spec. simpl. do 2 f_equal.
  apply filter_ext_elem_of. intros x Hx. tauto.
Qed.

(** The walk never raises, tries every file once, in order, keeps every
    directory and leaves exactly the files [os.remove] failed on. *)
Lemma walk_remove_spec t :
  ∀ top, ∃ t',
    walk_remove remove_fails top t = (Ok tt, t', tree_files top t) ∧
    skeleton t' = skeleton t ∧
    tree_dirs top t' = tree_dirs top t ∧
    tree_files top t' = filter (λ p, remove_fails p = true) (tree_files top t).
Proof.
  induction t as [files subdirs IH] using dirtree_ind. intros top.
  assert (∃ ds',
    walk_subdirs (walk_remove remove_fails) top subdirs
    = (Ok tt, ds', concat ((λ '(name, d), tree_files (os_path_join top name) d) <$> subdirs)) ∧
    (λ '(name, d), (name, skeleton d)) <$> ds'
    = (λ '(name, d), (name, skeleton d)) <$> subdirs ∧
    (λ '(name, d), tree_dirs (os_path_join top name) d) <$> ds'
    = (λ '(name, d), tree_dirs (os_path_join top name) d) <$> subdirs ∧
    (λ '(name, d), tree_files (os_path_join top name) d) <$> ds'
    = filter (λ p, remove_fails p = true) <$>
        ((λ '(name, d), tree_files (os_path_join top name) d) <$> subdirs))
    as (ds' & Hwalk & Hskel & Hdirs & Hfiles).
  { induction IH as [|[name d] ds Hd _ IHds]; [by exists []|].
    destruct IHds as (ds' & Hwalk & Hskel & Hdirs & Hfiles).
    destruct (Hd (os_path_join top name)) as (d' & Hwd & Hsd & Hdd & Hfd).
    simpl in Hd, Hwd, Hsd, Hdd, Hfd.
    exists ((name, d') :: ds'). cbn [walk_subdirs].
    rewrite Hwd. fold (walk_subdirs (walk_remove remove_fails) top ds).
    rewrite Hwalk, !fmap_cons, Hskel, Hdirs, Hfiles, Hsd, Hdd, Hfd.
    done. }
  exists (Dir (filter (λ x, remove_fails (os_path_join top x) = true) files) ds').
  cbn [walk_remove skeleton tree_dirs tree_files].
  rewrite remove_files_all, Hwalk, Hskel, Hdirs, Hfiles.
  split_and!; try done.
  by rewrite filter_app, filter_fmap_comm, filter_concat.
Qed.

Lemma key_regen_spec {V} (minions : gmap string V) (pki_dir : string) (w : world) :
  ∃ t',
    key_regen remove_fails minions pki_dir w
    = (Ok tt,
       World t' (removes w ++ tree_files pki_dir (pki w)) (spawned w)
         (displayed w) (stdout w ++ [msg])) ∧
    skeleton t' = skeleton (pki w) ∧
    tree_dirs pki_dir t' = tree_dirs pki_dir (pki w) ∧
    tree_files pki_dir t'
    = filter (λ p, remove_fails p = true) (tree_files pki_dir (pki w)).
Proof.
  destruct (walk_remove_spec (pki w) pki_dir) as (t' & Hwalk & Hrest).
  exists t'. split; [|done]. unfold key_regen. by rewrite Hwalk.
Qed.

End key_regen_facts.



(** C8: what [key_regen] does on the controller does not depend on the
    reply to the broadcast: for any two replies the result and the final
    world are the same, the call returns normally and the restart
    instruction is printed; on an empty pki directory nothing is handed to
    [os.remove], the directory is unchanged and the instruction is still
    printed. *)
Theorem key_regen_ignores_reply {V1 V2} (remove_fails : string → bool)
    (minions1 : gmap string V1) (minions2 : gmap string V2)
    (pki_dir : string) (w : world) :
  key_regen remove_fails minions1 pki_dir w = key_regen remove_fails minions2 pki_dir w ∧
  (key_regen remove_fails minions1 pki_dir w).1 = Ok tt ∧
  stdout (key_regen remove_fails minions1 pki_dir w).2 = stdout w ++ [msg] ∧
  ∀ rm sp di so,
    key_regen remove_fails minions1 pki_dir (World (Dir [] []) rm sp di so)
    = (Ok tt, World (Dir [] []) rm sp di (so ++ [msg])).
Proof.
  split; [done|].
  destruct (key_regen_spec remove_fails minions1 pki_dir w) as (t' & -> & _).
  split_and!; try done.
  intros rm sp di so. unfold key_regen. simpl. by rewrite app_nil_r.
Qed.

(** C10: [key_regen] removes regular files only: the tree has the same
    directories afterwards, at the same places, and every file left in it
    was there before. *)
Theorem key_regen_keeps_directories {V} (remove_fails : string → bool)
    (minions : gmap string V) (pki_dir : string) (w : world) :
  tree_dirs pki_dir (pki (key_regen remove_fails minions pki_dir w).2)
  = tree_dirs pki_dir (pki w) ∧
  skeleton (pki (key_regen remove_fails minions pki_dir w).2) = skeleton (pki w) ∧
  tree_files pki_dir (pki (key_regen remove_fails minions pki_dir w).2)
  ⊆ tree_files pki_dir (pki w).
Proof.
  destruct (key_regen_spec remove_fails minions pki_dir w)
    as (t' & -> & Hskel & Hdirs & Hfiles).
  simpl. split_and!; try done.
  rewrite Hfiles. intros p Hp. apply list_elem_of_filter in Hp. tauto.
Qed.

(** ** versions *)

(** *** Splitting and normalising *)

Lemma split_ne_nil sep s : split sep s ≠ [].
Proof.
  destruct s as [|c s]; simpl; [done|].
  destruct (decide (c = sep)); [done|]. by destruct (split sep s).
Qed.

Lemma split_sep_free sep a : sep_free sep a → split sep a = [a].
Proof.
  induction a as [|c a IH]; simpl; [done|]. intros [Hc Ha].
  rewrite decide_False by done. by rewrite IH.
Qed.

Lemma split_app_sep sep a s :
  sep_free sep a → split sep (a +:+ String sep s) = a :: split sep s.
Proof.
  induction a as [|c a IH]; simpl.
  - intros _. by rewrite decide_True.
  - intros [Hc Ha]. rewrite decide_False by done. by rewrite IH.
Qed.

Lemma join_split sep s : join (String sep EmptyString) (split sep s) = s.
Proof.
  induction s as [|c s IH]; simpl; [done|].
  destruct (decide (c = sep)) as [->|Hne].
  - pose proof (split_ne_nil sep s). unfold join in *. simpl.
    destruct (split sep s); [done|]. by rewrite IH.
  - pose proof (split_ne_nil sep s) as Hnil. unfold join in *.
    destruct (split sep s) as [|w ws]; [done|].
    simpl in *. destruct ws; simpl in *; by rewrite <-IH.
Qed.

Lemma normalized_version_three v a b c :
  split "-"%char v = [a; b; c] → normalized_version v = a +:+ "-" +:+ b.
Proof. unfold normalized_version. by intros ->. Qed.

Lemma normalized_version_other v :
  length (split "-"%char v) ≠ 3%nat → normalized_version v = v.
Proof. unfold normalized_version. intros Hlen. by rewrite decide_False. Qed.

Lemma app_singleton (ch : ascii) (s : string) :
  String ch EmptyString +:+ s = String ch s.
Proof. reflexivity. Qed.

Lemma split_three a b c :
  sep_free "-"%char a → sep_free "-"%char b → sep_free "-"%char c →
  split "-"%char (a +:+ "-" +:+ b +:+ "-" +:+ c) = [a; b; c].
Proof.
  intros Ha Hb Hc. rewrite !app_singleton.
  rewrite (split_app_sep _ a) by done.
  rewrite (split_app_sep _ b) by done.
  by rewrite split_sep_free.
Qed.

Lemma split_two a b :
  sep_free "-"%char a → sep_free "-"%char b →
  split "-"%char (a +:+ "-" +:+ b) = [a; b].
Proof.
  intros Ha Hb. rewrite !app_singleton.
  rewrite (split_app_sep _ a) by done. by rewrite split_sep_free.
Qed.

(** *** The two loops *)

Lemma extend_None {A} (b : list A) :
  extend None b = match b with [] => None | _ :: _ => Some b end.
Proof. by destruct b. Qed.

Lemma extend_snoc {A} (o : option (list A)) (x : A) (b : list A) :
  extend (Some (default [] o ++ [x])) b = extend o (x :: b).
Proof. destruct b; simpl; [done|]. by rewrite <-app_assoc. Qed.

Lemma lookup_append_bucket label b ret s :
  append_bucket label b ret !! s
  = if decide (s = label) then extend (ret !! s) b else ret !! s.
Proof.
  unfold append_bucket, extend. destruct b as [|x b].
  - by case_decide.
  - case_decide as Heq; [subst; by rewrite lookup_insert_eq|].
    by rewrite lookup_insert_ne.
Qed.

Lemma int_of_comparison_inj : Inj (=) (=) int_of_comparison.
Proof. by intros [] [] ?. Qed.

Lemma bucket_label_inj : Inj (=) (=) bucket_label.
Proof. by intros [] [] ?. Qed.

Lemma labels_lookup c : labels !! int_of_comparison c = Some (bucket_label c).
Proof. by destruct c. Qed.

Section versions_facts.
Variable minions : gmap string string.
Variable master_version : string.

Lemma classify_minion_spec minion reported vs :
  minions !! minion = Some reported →
  classify_minion minions master_version minion vs
  = Ok (<[cmp (normalized_version reported) master_version :=
           default [] (vs !! cmp (normalized_version reported) master_version)
           ++ [minion]]> vs).
Proof.
  intros Hm. unfold classify_minion, getitem. rewrite Hm. simpl.
  set (d := cmp (normalized_version reported) master_version).
  case_decide as Hd.
  - apply elem_of_dom in Hd as [bucket Hb]. by rewrite Hb.
  - apply not_elem_of_dom in Hd. rewrite lookup_insert_eq, Hd. simpl.
    by rewrite insert_insert_eq.
Qed.

(** The first loop: [version_status] maps the outcome of each comparison
    that occurred to the agents with that outcome, in iteration order. *)
Lemma classify_loop ks vs0 :
  (∀ m, m ∈ ks → is_Some (minions !! m)) →
  ∃ vs, for_each ks (classify_minion minions master_version) vs0 = Ok vs ∧
    (∀ c, vs !! int_of_comparison c
          = extend (vs0 !! int_of_comparison c)
              (agents_comparing minions master_version c ks)) ∧
    (∀ d, (∀ c, d ≠ int_of_comparison c) → vs !! d = vs0 !! d).
Proof.
  revert vs0. induction ks as [|m ks IH]; intros vs0 Hks.
  { exists vs0. by split_and!. }
  destruct (Hks m) as [reported Hm]; [by left|].
  cbn [for_each]. rewrite (classify_minion_spec _ _ _ Hm). cbn [bind].
  edestruct IH as (vs & -> & Hvs & Hother); [intros; apply Hks; by right|].
  exists vs. split; [done|]. unfold cmp in *.
  set (c0 := String.compare (normalized_version reported) master_version) in *.
  split.
  - intros c. rewrite Hvs. unfold agents_comparing. rewrite filter_cons.
    destruct (decide (c = c0)) as [->|Hne].
    + rewrite lookup_insert_eq, decide_True.
      * apply extend_snoc.
      * unfold compares_as. by rewrite Hm.
    + rewrite lookup_insert_ne by (intros ?%int_of_comparison_inj; done).
      rewrite decide_False; [done|].
      unfold compares_as. rewrite Hm. simpl. intros [= Heq]. by apply Hne.
  - intros d Hd. rewrite Hother by done. by rewrite lookup_insert_ne.
Qed.

Lemma append_loop key label bucket ret :
  labels !! key = Some label →
  for_each bucket
    (λ minion ret,
       bind (getitem labels key) (λ label, Ok (setdefault_append label minion ret)))
    ret
  = Ok (append_bucket label bucket ret).
Proof.
  intros Hl. revert ret. induction bucket as [|m bucket IH]; intros ret; [done|].
  cbn [for_each]. unfold getitem at 1. rewrite Hl. cbn [bind]. rewrite IH.
  f_equal. unfold append_bucket, setdefault_append. destruct bucket as [|m' bucket].
  - done.
  - rewrite lookup_insert_eq, insert_insert_eq. simpl. by rewrite <-app_assoc.
Qed.

(** The second loop: every bucket is sorted and filed under its label. *)
Lemma label_loop (vs : gmap Z (list string)) kl ret0 :
  NoDup kl →
  (∀ k, k ∈ kl → is_Some (vs !! k) ∧ ∃ c, k = int_of_comparison c) →
  ∃ ret, for_each kl (label_bucket vs) ret0 = Ok ret ∧
    (∀ c, ret !! bucket_label c
          = if decide (int_of_comparison c ∈ kl)
            then extend (ret0 !! bucket_label c)
                   (sorted (default [] (vs !! int_of_comparison c)))
            else ret0 !! bucket_label c) ∧
    (∀ s, (∀ c, s ≠ bucket_label c) → ret !! s = ret0 !! s).
Proof.
  intros Hnd. revert ret0. induction Hnd as [|k kl Hk Hnd IH]; intros ret0 Hkl.
  { exists ret0. by split_and!. }
  destruct (Hkl k) as [[bucket Hb] [c0 ->]]; [by left|].
  cbn [for_each]. unfold label_bucket at 1, getitem at 1. rewrite Hb. cbn [bind].
  rewrite (append_loop _ _ _ _ (labels_lookup c0)). cbn [bind].
  edestruct IH as (ret & -> & Hret & Hother); [intros; apply Hkl; by right|].
  exists ret. split; [done|]. split.
  - intros c. rewrite Hret, lookup_append_bucket.
    destruct (decide (c = c0)) as [->|Hne].
    + rewrite (decide_False (P:=_ ∈ kl)) by done.
      rewrite decide_True by done. rewrite decide_True by (by left).
      by rewrite Hb.
    + rewrite (decide_False (P:=bucket_label c = _))
        by (intros ?%bucket_label_inj; done).
      destruct (decide (int_of_comparison c ∈ kl)) as [Hin|Hnin].
      * rewrite decide_True by (by right). done.
      * rewrite decide_False; [done|].
        rewrite not_elem_of_cons. split; [|done].
        intros ?%int_of_comparison_inj; done.
  - intros s Hs. rewrite Hother by done. rewrite lookup_append_bucket.
    by rewrite decide_False.
Qed.

End versions_facts.

(** What [versions] returns: under each of the three labels, the agents
    whose normalised version compares accordingly with the normalised
    version of the controller, sorted; a label without agents is absent,
    and there is no other key. *)
Lemma versions_spec (salt_version : string) (minions : gmap string string) (w : world) :
  ∃ ret,
    versions salt_version minions w = (Ok ret, display_output (VDict ret) w) ∧
    (∀ c, ret !! bucket_label c
          = match agents_comparing minions (normalized_version salt_version) c
                    (dict_keys minions) with
            | [] => None
            | m :: b => Some (sorted (m :: b))
            end) ∧
    (∀ s, (∀ c, s ≠ bucket_label c) → ret !! s = None).
Proof.
  unfold versions. set (mv := normalized_version salt_version).
  destruct (classify_loop minions mv (dict_keys minions) ∅)
    as (vs & -> & Hvs & Hvs_other).
  { intros m Hm. by apply elem_of_dict_keys, elem_of_dom in Hm. }
  cbn [bind].
  assert (∀ c, vs !! int_of_comparison c
               = match agents_comparing minions mv c (dict_keys minions) with
                 | [] => None
                 | m :: b => Some (m :: b)
                 end) as Hvs'.
  { intros c. rewrite Hvs, lookup_empty, extend_None.
    by destruct (agents_comparing _ _ _ _). }
  destruct (label_loop vs (dict_keys vs) ∅) as (ret & -> & Hret & Hother).
  { apply NoDup_dict_keys. }
  { intros k Hk. apply elem_of_dict_keys, elem_of_dom in Hk. split; [done|].
    destruct (decide (k = int_of_comparison Lt)) as [->|HLt]; [by exists Lt|].
    destruct (decide (k = int_of_comparison Eq)) as [->|HEq]; [by exists Eq|].
    destruct (decide (k = int_of_comparison Gt)) as [->|HGt]; [by exists Gt|].
    rewrite Hvs_other, lookup_empty in Hk; [by destruct Hk|].
    by intros []. }
  exists ret. split; [done|]. split.
  - intros c. rewrite Hret, lookup_empty, Hvs'.
    destruct (agents_comparing minions mv c (dict_keys minions)) as [|m b] eqn:Hb.
    + rewrite decide_False; [done|].
      rewrite elem_of_dict_keys, elem_of_dom, Hvs', Hb. by intros [? ?].
    + rewrite decide_True.
      * simpl. rewrite extend_None.
        destruct (sorted (m :: b)) as [|x l] eqn:Hs; [|done].
        pose proof (sorted_Permutation (m :: b)) as Hp. rewrite Hs in Hp.
        by apply Permutation_nil_cons in Hp.
      * rewrite elem_of_dict_keys, elem_of_dom, Hvs', Hb. by eexists.
  - intros s Hs. by rewrite Hother, lookup_empty.
Qed.

Lemma elem_of_agents_comparing minions master_version c m :
  m ∈ agents_comparing minions master_version c (dict_keys minions)
  ↔ ∃ reported, minions !! m = Some reported ∧
      String.compare (normalized_version reported) master_version = c.
Proof.
  unfold agents_comparing, compares_as.
  rewrite list_elem_of_filter, elem_of_dict_keys, elem_of_dom. split.
  - intros [Hc [reported Hm]]. exists reported. rewrite Hm in Hc.
    split; [done|]. by injection Hc.
  - intros (reported & Hm & <-). rewrite Hm. split; [done|by eexists].
Qed.

(** Every key of the result is one of the three labels, and its value is
    the sorted, non-empty list of the agents comparing that way. *)
Lemma versions_lookup_Some salt_version minions w ret label l :
  (versions salt_version minions w).1 = Ok ret →
  ret !! label = Some l →
  ∃ c, label = bucket_label c ∧
    l = sorted (agents_comparing minions (normalized_version salt_version) c
                  (dict_keys minions)).
Proof.
  destruct (versions_spec salt_version minions w) as (ret' & -> & Hret & Hother).
  simpl. intros [= <-] Hl.
  assert (∀ c, label = bucket_label c →
    ∃ c, label = bucket_label c ∧
      l = sorted (agents_comparing minions (normalized_version salt_version) c
                    (dict_keys minions))) as Hcase.
  { intros c ->. exists c. split; [done|]. rewrite Hret in Hl.
    destruct (agents_comparing _ _ _ _); by simplify_eq. }
  destruct (decide (label = bucket_label Lt)) as [?|HLt]; [by eapply Hcase|].
  destruct (decide (label = bucket_label Eq)) as [?|HEq]; [by eapply Hcase|].
  destruct (decide (label = bucket_label Gt)) as [?|HGt]; [by eapply Hcase|].
  rewrite Hother in Hl; [done|]. by intros [].
Qed.

(** An agent is filed under the label of the comparison of its normalised
    version with the normalised version of the controller, and under no
    other label. *)
Lemma versions_bucket_of salt_version minions w m reported :
  minions !! m = Some reported →
  ∃ ret l,
    (versions salt_version minions w).1 = Ok ret ∧
    ret !! bucket_label (String.compare (normalized_version reported)
                           (normalized_version salt_version)) = Some l ∧
    m ∈ l ∧
    ∀ label' l', ret !! label' = Some l' → m ∈ l' →
      label' = bucket_label (String.compare (normalized_version reported)
                               (normalized_version salt_version)).
Proof.
  intros Hm.
  pose proof (versions_lookup_Some salt_version minions w) as Hsome.
  destruct (versions_spec salt_version minions w) as (ret & Hv & Hret & _).
  rewrite Hv in Hsome. simpl in Hsome. rewrite Hv. simpl.
  set (mv := normalized_version salt_version) in *.
  set (c := String.compare (normalized_version reported) mv).
  assert (m ∈ agents_comparing minions mv c (dict_keys minions)) as Hin.
  { apply elem_of_agents_comparing. by exists reported. }
  exists ret, (sorted (agents_comparing minions mv c (dict_keys minions))).
  split; [done|]. split; [|split].
  - rewrite Hret. destruct (agents_comparing _ _ _ _); [|done].
    by apply elem_of_nil in Hin.
  - by apply elem_of_sorted.
  - intros label' l' Hl' Hml'.
    destruct (Hsome ret label' l' eq_refl Hl') as (c' & -> & ->).
    apply elem_of_sorted, elem_of_agents_comparing in Hml'
      as (reported' & Hm' & <-).
    rewrite Hm in Hm'. by injection Hm' as <-.
Qed.

(** C7: [versions] returns normally; every key of its result is one of
    the three labels; every bucket is sorted, without repetition, and made
    of responders; and every responder is in one bucket and one only. *)
Theorem versions_buckets_total (salt_version : string)
    (minions : gmap string string) (w : world) :
  ∃ ret,
    (versions salt_version minions w).1 = Ok ret ∧
    (∀ label l, ret !! label = Some l →
       label ∈ ["Minion requires update"; "Up to date"; "Minion newer than master"] ∧
       StronglySorted String.le l ∧ NoDup l ∧
       ∀ m, m ∈ l → m ∈ dom minions) ∧
    (∀ m, m ∈ dom minions →
       ∃ label l, ret !! label = Some l ∧ m ∈ l ∧
         ∀ label' l', ret !! label' = Some l' → m ∈ l' → label' = label).
Proof.
  pose proof (versions_lookup_Some salt_version minions w) as Hsome.
  pose proof (versions_bucket_of salt_version minions w) as Hof.
  destruct (versions_spec salt_version minions w) as (ret & Hv & _).
  rewrite Hv in Hsome, Hof. simpl in Hsome, Hof.
  exists ret. rewrite Hv. split; [done|]. split.
  - intros label l Hl. destruct (Hsome ret label l eq_refl Hl) as (c & -> & ->).
    split_and!.
    + destruct c; set_solver.
    + apply sorted_StronglySorted.
    + apply NoDup_sorted, NoDup_filter, NoDup_dict_keys.
    + intros m Hm. apply elem_of_sorted, elem_of_agents_comparing in Hm
        as (reported & Hm & _). apply elem_of_dom. by eexists.
  - intros m [reported Hm]%elem_of_dom.
    destruct (Hof m reported Hm) as (ret' & l & [= <-] & Hl & Hin & Huniq).
    eauto 10.
Qed.

(** C4: a version made of three dash-separated segments is normalised to
    its first two segments joined by a dash; a version made of two
    segments, and any version that does not split into exactly three, is
    left as it is; and [versions] compares the normalised version of each
    agent with the normalised version of the controller. *)
Theorem normalized_version_segments (a b c : string) :
  sep_free "-"%char a → sep_free "-"%char b → sep_free "-"%char c →
  normalized_version (a +:+ "-" +:+ b +:+ "-" +:+ c) = a +:+ "-" +:+ b ∧
  normalized_version (a +:+ "-" +:+ b) = a +:+ "-" +:+ b ∧
  normalized_version a = a ∧
  (∀ v x y z, split "-"%char v = [x; y; z] →
     normalized_version v = x +:+ "-" +:+ y) ∧
  (∀ v, length (split "-"%char v) ≠ 3%nat → normalized_version v = v) ∧
  (∀ salt_version minions w m reported,
     minions !! m = Some reported →
     ∃ ret l,
       (versions salt_version minions w).1 = Ok ret ∧
       ret !! bucket_label (String.compare (normalized_version reported)
                              (normalized_version salt_version)) = Some l ∧
       m ∈ l).
Proof.
  intros Ha Hb Hc. split_and!.
  - by apply normalized_version_three with c, split_three.
  - apply normalized_version_other. by rewrite split_two.
  - apply normalized_version_other. by rewrite split_sep_free.
  - apply normalized_version_three.
  - apply normalized_version_other.
  - intros salt_version minions w m reported Hm.
    destruct (versions_bucket_of salt_version minions w m reported Hm)
      as (ret & l & ? & ? & ? & _).
    by exists ret, l.
Qed.

Lemma normalized_version_segments_witness :
  normalized_version ("2014.7.0" +:+ "-" +:+ "123" +:+ "-" +:+ "abcdef")
  = "2014.7.0" +:+ "-" +:+ "123".
Proof.
  refine (proj1 (normalized_version_segments "2014.7.0" "123" "abcdef" _ _ _));
    simpl; repeat split; discriminate.
Defined.

(** The comparison of [versions] is not the numeric one: an agent at
    0.10.0 under a controller at 0.9.0 is numerically ahead, and is not
    filed under the label of the numeric outcome. *)
Lemma versions_not_numeric_order :
  ¬ (∀ salt_version minions w m reported,
       minions !! m = Some reported →
       ∃ ret l,
         (versions salt_version minions w).1 = Ok ret ∧
         ret !! bucket_label (numeric_version_compare (normalized_version reported)
                                (normalized_version salt_version)) = Some l ∧
         m ∈ l).
Proof.
  intros Hclaim.
  assert (({[ "m" := "0.10.0" ]} : gmap string string) !! "m" = Some "0.10.0")
    as Hm by (vm_compute; reflexivity).
  destruct (Hclaim "0.9.0" {[ "m" := "0.10.0" ]}
              (World (Dir [] []) [] [] [] []) "m" "0.10.0" Hm)
    as (ret & l & Hret & Hl & _).
  vm_compute in Hret. injection Hret as <-.
  vm_compute in Hl. discriminate Hl.
Qed.

(** C2: [versions] does not follow the numeric order of versions, which
    its labels announce. It files an agent at 0.10.0 under a controller at
    0.9.0 under 'Minion requires update', and an agent at 0.9.9 under a
    controller at 0.17.0 under 'Minion newer than master', whereas in the
    numeric order the first agent is ahead of its controller and the
    second behind. *)
Theorem versions_misfiles_by_string_order (w : world) :
  (versions "0.9.0" {[ "m" := "0.10.0" ]} w).1
  = Ok {[ "Minion requires update" := ["m"] ]} ∧
  numeric_version_compare (normalized_version "0.10.0") (normalized_version "0.9.0")
  = Gt ∧
  (versions "0.17.0" {[ "m" := "0.9.9" ]} w).1
  = Ok {[ "Minion newer than master" := ["m"] ]} ∧
  numeric_version_compare (normalized_version "0.9.9") (normalized_version "0.17.0")
  = Lt.
Proof. split_and!; vm_compute; reflexivity. Qed.

(** In the scenario of the specification the agent z, reporting
    2016.3.0-99-abc, is not filed under 'Up to date'. *)
Lemma versions_scenario_z_not_current :
  ¬ (∃ ret current stale,
       (versions "2016.3.0"
          {[ "x" := "2016.3.0"; "y" := "2015.8.0"; "z" := "2016.3.0-99-abc" ]}
          (World (Dir [] []) [] [] [] [])).1 = Ok ret ∧
       ret !! "Up to date" = Some current ∧
       ret !! "Minion requires update" = Some stale ∧
       "x" ∈ current ∧ "z" ∈ current ∧ "y" ∈ stale).
Proof.
  intros (ret & current & stale & Hret & Hcur & _ & _ & Hz & _).
  vm_compute in Hret. injection Hret as <-.
  vm_compute in Hcur. injection Hcur as <-.
  apply list_elem_of_singleton in Hz. discriminate Hz.
Qed.

(** C3, amended: with the controller at 2016.3.0 and the agents x at
    2016.3.0, y at 2015.8.0 and z at 2016.3.0-99-abc, [versions] files x
    under 'Up to date', y under 'Minion requires update' and z under
    'Minion newer than master': z is normalised to 2016.3.0-99, which is
    higher than 2016.3.0. *)
Theorem versions_scenario (w : world) :
  (versions "2016.3.0"
     {[ "x" := "2016.3.0"; "y" := "2015.8.0"; "z" := "2016.3.0-99-abc" ]} w).1
  = Ok {[ "Up to date" := ["x"];
          "Minion requires update" := ["y"];
          "Minion newer than master" := ["z"] ]} ∧
  normalized_version "2016.3.0-99-abc" = "2016.3.0-99" ∧
  normalized_version "2016.3.0" = "2016.3.0" ∧
  cmp "2016.3.0-99" "2016.3.0" = 1.
Proof. split_and!; vm_compute; reflexivity. Qed.

(** * Further properties *)

(** ** up and down *)

Lemma status_world {V} (minions : gmap string V) registered w :
  (status minions registered false w).2 = w.
Proof. done. Qed.

Lemma status_get_up {V} (minions : gmap string V) registered output w :
  default [] ((status minions registered output w).1 !! "up") = status_up minions.
Proof. rewrite status_ret. by simplify_map_eq. Qed.

Lemma foldl_display_output (agents : list string) (w : world) :
  foldl (λ w minion, display_output (VStr minion) w) w agents
  = World (pki w) (removes w) (spawned w) (displayed w ++ (VStr <$> agents))
      (stdout w).
Proof.
  revert w. induction agents as [|a agents IH]; intros w; simpl.
  - rewrite app_nil_r. by destruct w.
  - rewrite IH. simpl. by rewrite <-app_assoc.
Qed.

Lemma up_unfold {V} (minions : gmap string V) registered w :
  up minions registered w
  = (status_up minions,
     foldl (λ w minion, display_output (VStr minion) w) w (status_up minions)).
Proof.
  unfold up. pose proof (status_get_up minions registered false w) as Hu.
  destruct (status minions registered false w) as [st w'] eqn:Hst.
  assert (w' = w) as -> by (unfold status in Hst; by simplify_eq).
  simpl in Hu. by rewrite Hu.
Qed.

Lemma for_each_in_display (agents : list string) (w : world) :
  for_each_in agents (λ minion w, (Ok tt, display_output (VStr minion) w)) w
  = (Ok tt,
     World (pki w) (removes w) (spawned w) (displayed w ++ (VStr <$> agents))
       (stdout w)).
Proof.
  revert w. induction agents as [|a agents IH]; intros w; simpl.
  - rewrite app_nil_r. by destruct w.
  - rewrite IH. simpl. by rewrite <-app_assoc.
Qed.

Lemma down_render_unfold {V} run (minions : gmap string V) registered w :
  down run false minions registered w
  = (Ok (status_down minions registered),
     World (pki w) (removes w) (spawned w)
       (displayed w ++ (VStr <$> status_down minions registered)) (stdout w)).
Proof.
  unfold down. pose proof (status_get_down minions registered false w) as Hd.
  destruct (status minions registered false w) as [st w'] eqn:Hst.
  assert (w' = w) as -> by (unfold status in Hst; by simplify_eq).
  simpl in Hd. rewrite Hd.
  change (down_step run false)
    with (λ minion w, (Ok tt : result unit, display_output (VStr minion) w)).
  by rewrite for_each_in_display.
Qed.

(** Whatever [down] returns is the down list of [status]. *)
Lemma down_returns {V} run removekeys (minions : gmap string V) registered w D :
  (down run removekeys minions registered w).1 = Ok D →
  D = status_down minions registered.
Proof.
  destruct removekeys.
  - rewrite down_removekeys_unfold. simpl.
    destruct (all_run _ _); [|done]. by intros [= <-].
  - rewrite down_render_unfold. simpl. by intros [= <-].
Qed.

(** With an empty down list [down] does nothing. *)
Lemma down_nil {V} run removekeys (minions : gmap string V) registered w :
  status_down minions registered = [] →
  down run removekeys minions registered w = (Ok [], w).
Proof.
  intros Hnil. destruct removekeys.
  - rewrite down_removekeys_unfold, Hnil. simpl. rewrite app_nil_r. by destruct w.
  - rewrite down_render_unfold, Hnil. simpl. rewrite app_nil_r. by destruct w.
Qed.

Lemma status_up_dom {V} (minions : gmap string V) :
  status_up minions = sorted (elements (dom minions)).
Proof.
  apply sorted_proper, NoDup_Permutation;
    [apply NoDup_dict_keys|apply NoDup_elements|].
  intros m. by rewrite elem_of_dict_keys, elem_of_elements.
Qed.

Lemma status_down_dom {V} (minions : gmap string V) registered :
  status_down minions registered
  = sorted (elements (py_set registered ∖ dom minions)).
Proof. unfold status_down. by rewrite py_set_dict_keys. Qed.

(** X1: [up] returns the responders in lexicographic order, whatever the
    registered identities are, renders each of them once, in that order,
    and does nothing else. *)
Theorem up_renders_responders {V} (minions : gmap string V)
    (registered : list string) (w : world) :
  (up minions registered w).1 = sorted (elements (dom minions)) ∧
  (up minions registered w).2
  = World (pki w) (removes w) (spawned w)
      (displayed w ++ (VStr <$> sorted (elements (dom minions)))) (stdout w).
Proof.
  rewrite up_unfold, foldl_display_output, status_up_dom. done.
Qed.

(** X2: without [removekeys], [down] spawns no process: it renders each
    agent of the down list once, in lexicographic order, and returns the
    list. *)
Theorem down_renders_agents {V} (run : list string → option Z)
    (minions : gmap string V) (registered : list string) (w : world) :
  (down run false minions registered w).1
  = Ok (sorted (elements (py_set registered ∖ dom minions))) ∧
  (down run false minions registered w).2
  = World (pki w) (removes w) (spawned w)
      (displayed w ++ (VStr <$> sorted (elements (py_set registered ∖ dom minions))))
      (stdout w).
Proof. rewrite down_render_unfold, <-status_down_dom. done. Qed.

(** X3: [up] and [down] split the fleet: [down] returns a list, the same
    whenever it returns, with or without [removekeys]; every registered
    identity is returned by exactly one of [up] and [down], every agent
    [down] returns is registered, and together the two lists have one
    entry for each identity that is registered or responded. *)
Theorem up_down_split_fleet {V} (run : list string → option Z)
    (minions : gmap string V) (registered : list string) (w1 w2 : world) :
  ∃ D : list string,
    (down run false minions registered w2).1 = Ok D ∧
    (∀ removekeys D',
       (down run removekeys minions registered w2).1 = Ok D' → D' = D) ∧
    (∀ m, m ∈ registered →
       (m ∈ (up minions registered w1).1 ∧ ¬ m ∈ D)
       ∨ (¬ m ∈ (up minions registered w1).1 ∧ m ∈ D)) ∧
    (∀ m, m ∈ D → m ∈ registered) ∧
    (length (up minions registered w1).1 + length D
     = size (py_set registered ∪ dom minions))%nat.
Proof.
  exists (status_down minions registered).
  rewrite up_unfold, down_render_unfold. simpl. split_and!.
  - done.
  - intros removekeys D'. apply down_returns.
  - intros m Hm. rewrite elem_of_status_up, elem_of_status_down.
    destruct (decide (m ∈ dom minions)); tauto.
  - intros m Hm. apply elem_of_status_down in Hm. tauto.
  - rewrite status_up_dom, status_down_dom.
    rewrite !(Permutation_length (sorted_Permutation _)).
    change (length (elements ?X)) with (size X).
    assert (dom minions ## py_set registered ∖ dom minions) as Hdisj.
    { intros m Hm. rewrite elem_of_difference. tauto. }
    rewrite <-(size_union _ _ Hdisj). f_equal.
    apply set_eq. intros m. rewrite !elem_of_union, elem_of_difference.
    destruct (decide (m ∈ dom minions)); tauto.
Qed.

(** X4: [down] returns the empty list exactly when every registered
    identity responded, and then it leaves the world as it found it, with
    or without [removekeys]. *)
Theorem down_empty_iff_all_respond {V} (run : list string → option Z)
    (removekeys : bool) (minions : gmap string V) (registered : list string)
    (w : world) :
  ((down run removekeys minions registered w).1 = Ok []
   ↔ ∀ m, m ∈ registered → m ∈ dom minions) ∧
  ((down run removekeys minions registered w).1 = Ok [] →
   (down run removekeys minions registered w).2 = w).
Proof.
  assert ((down run removekeys minions registered w).1 = Ok []
          ↔ status_down minions registered = []) as Hnil.
  { split.
    - intros Hd. by apply down_returns in Hd.
    - intros Hd. by rewrite down_nil. }
  split.
  - rewrite Hnil. split.
    + intros Hd m Hm. destruct (decide (m ∈ dom minions)) as [|Hout]; [done|].
      assert (m ∈ status_down minions registered) as Hin
        by (by apply elem_of_status_down).
      rewrite Hd in Hin. by apply elem_of_nil in Hin.
    + intros Hall. destruct (status_down minions registered) as [|m l] eqn:Hd; [done|].
      assert (m ∈ status_down minions registered) as Hin by (rewrite Hd; by left).
      apply elem_of_status_down in Hin as [Hr Hout]. destruct Hout. by apply Hall.
  - intros Hd%Hnil. by rewrite down_nil.
Qed.

(** X20: with [removekeys=True], [down] makes the deletion requests in
    the order of the down list, up to the first request that cannot be
    executed: the [OSError] of that request leaves [down], which then
    returns no list and makes no request for the agents after it. It
    renders nothing. *)
Theorem down_removekeys_until_oserror {V} (run : list string → option Z)
    (minions : gmap string V) (registered : list string) (w : world) :
  (down run true minions registered w).1
  = (if all_run run
          (salt_key_delete <$> sorted (elements (py_set registered ∖ dom minions)))
     then Ok (sorted (elements (py_set registered ∖ dom minions)))
     else Raise (OSError "salt-key")) ∧
  (down run true minions registered w).2
  = World (pki w) (removes w)
      (spawned w
       ++ attempted run
            (salt_key_delete <$> sorted (elements (py_set registered ∖ dom minions))))
      (displayed w) (stdout w).
Proof. rewrite down_removekeys_unfold, <-status_down_dom. done. Qed.

(** ** bootstrap *)

Lemma length_split sep s : length (split sep s) = S (count_char sep s).
Proof.
  induction s as [|c s IH]; simpl; [done|].
  destruct (decide (c = sep)); simpl; [by rewrite IH|].
  pose proof (split_ne_nil sep s). destruct (split sep s); [done|].
  simpl in *. done.
Qed.

Lemma split_fields_sep_free sep s : Forall (sep_free sep) (split sep s).
Proof.
  induction s as [|c s IH]; simpl.
  - by repeat constructor.
  - destruct (decide (c = sep)); [by constructor|].
    destruct (split sep s) as [|f fs]; [by repeat constructor|].
    apply Forall_cons in IH as [Hf Hfs]. by constructor.
Qed.

(** X5: [bootstrap] runs one ssh command for each comma-separated field
    of [hosts], in order and whatever the exit status of the commands
    before, up to the first command that cannot be executed, whose
    [OSError] leaves [bootstrap]; it does nothing else. When every
    command can be executed it returns normally after one command for
    each field. The fields contain no comma, give [hosts] back when joined
    with commas, and are one more than the commas of [hosts]. *)
Theorem bootstrap_one_ssh_per_field (run : list string → option Z)
    (version script hosts : string) (w : world) :
  bootstrap run version script hosts w
  = (if all_run run (bootstrap_argv version script <$> split ","%char hosts)
     then Ok tt else Raise (OSError "ssh"),
     World (pki w) (removes w)
       (spawned w
        ++ attempted run (bootstrap_argv version script <$> split ","%char hosts))
       (displayed w) (stdout w)) ∧
  (all_run run (bootstrap_argv version script <$> split ","%char hosts) = true →
   bootstrap run version script hosts w
   = (Ok tt,
      World (pki w) (removes w)
        (spawned w ++ (bootstrap_argv version script <$> split ","%char hosts))
        (displayed w) (stdout w))) ∧
  length (split ","%char hosts) = S (count_char ","%char hosts) ∧
  Forall (sep_free ","%char) (split ","%char hosts) ∧
  join "," (split ","%char hosts) = hosts.
Proof.
  assert (bootstrap run version script hosts w
          = (if all_run run (bootstrap_argv version script <$> split ","%char hosts)
             then Ok tt else Raise (OSError "ssh"),
             World (pki w) (removes w)
               (spawned w
                ++ attempted run (bootstrap_argv version script <$> split ","%char hosts))
               (displayed w) (stdout w))) as Hb.
  { unfold bootstrap.
    by rewrite (spawn_loop run (bootstrap_argv version script) "ssh"). }
  split_and!.
  - done.
  - intros Hall. by rewrite Hb, Hall, (attempted_all_run _ _ Hall).
  - apply length_split.
  - apply split_fields_sep_free.
  - apply join_split.
Qed.

(** X6: called with an empty [hosts], which is the default, [bootstrap]
    still runs one ssh command, for the user root on a host without
    name. *)
Theorem bootstrap_empty_hosts (run : list string → option Z)
    (version script : string) (w : world) :
  spawned (bootstrap run version script bootstrap_hosts w).2
  = spawned w ++ [["ssh"; "root@"; bootstrap_command version script]].
Proof.
  unfold bootstrap.
  rewrite (spawn_loop run (bootstrap_argv version script) "ssh") by done.
  simpl. by destruct (run _).
Qed.

(** ** Normalising a version *)


Lemma app_assoc_string (a b c : string) : (a +:+ b) +:+ c = a +:+ (b +:+ c).
Proof.
  induction a as [|ch a IH]; [done|].
  change (String ch a +:+ b) with (String ch (a +:+ b)).
  change (String ch (a +:+ b) +:+ c) with (String ch ((a +:+ b) +:+ c)).
  by rewrite IH.
Qed.

(** A version of three segments is its normal form followed by a dash and
    the third segment. *)
Lemma split_three_inv v a b c :
  split "-"%char v = [a; b; c] → v = (a +:+ "-" +:+ b) +:+ "-" +:+ c.
Proof.
  intros Hv. rewrite <-(join_split "-"%char v) at 1. rewrite Hv.
  unfold join. simpl. by rewrite !app_assoc_string.
Qed.

(** X7: normalising a version only cuts its end off: the normalised
    version starts the version, and what is cut is a dash and a last
    segment without dash. *)
Theorem normalized_version_starts (v : string) :
  starts (normalized_version v) v ∧
  (normalized_version v = v
   ∨ ∃ c, sep_free "-"%char c ∧ v = normalized_version v +:+ "-" +:+ c).
Proof.
  unfold normalized_version. case_decide as Hlen.
  - pose proof (split_fields_sep_free "-"%char v) as Hfree.
    destruct (split "-"%char v) as [|a [|b [|c [|]]]] eqn:Hv; try done.
    apply split_three_inv in Hv. unfold join. simpl.
    apply Forall_cons in Hfree as [_ Hfree].
    apply Forall_cons in Hfree as [_ Hfree].
    apply Forall_cons in Hfree as [Hc _].
    split; [by exists ("-" +:+ c)|]. right. by exists c.
  - split; [|by left]. exists "". clear. induction v as [|c v IH]; [done|].
    change (String c v +:+ "") with (String c (v +:+ "")). by rewrite <-IH.
Qed.

Lemma normalized_version_not_three (v : string) :
  length (split "-"%char (normalized_version v)) ≠ 3%nat.
Proof.
  unfold normalized_version. case_decide as Hlen; [|done].
  pose proof (split_fields_sep_free "-"%char v) as Hfree.
  destruct (split "-"%char v) as [|a [|b [|c [|]]]] eqn:Hv; try done.
  apply Forall_cons in Hfree as [Ha Hfree].
  apply Forall_cons in Hfree as [Hb _].
  unfold join. simpl. by rewrite split_two.
Qed.

Lemma normalized_version_twice (v : string) :
  normalized_version (normalized_version v) = normalized_version v.
Proof. apply normalized_version_other, normalized_version_not_three. Qed.

(** X8: a normalised version never has three segments, so normalising
    twice is normalising once. *)
Theorem normalized_version_idempotent (v : string) :
  length (split "-"%char (normalized_version v)) ≠ 3%nat ∧
  normalized_version (normalized_version v) = normalized_version v.
Proof.
  split; [apply normalized_version_not_three|apply normalized_version_twice].
Qed.

(** ** versions *)

(** A dict with the three labels as only keys is determined by what is
    under them. *)
Lemma labelled_dict_eq (ret1 ret2 : gmap string (list string)) :
  (∀ c, ret1 !! bucket_label c = ret2 !! bucket_label c) →
  (∀ s, (∀ c, s ≠ bucket_label c) → ret1 !! s = None) →
  (∀ s, (∀ c, s ≠ bucket_label c) → ret2 !! s = None) →
  ret1 = ret2.
Proof.
  intros Hlab H1 H2. apply map_eq. intros s.
  destruct (decide (s = bucket_label Lt)) as [->|HLt]; [apply Hlab|].
  destruct (decide (s = bucket_label Eq)) as [->|HEq]; [apply Hlab|].
  destruct (decide (s = bucket_label Gt)) as [->|HGt]; [apply Hlab|].
  rewrite H1, H2; [done|by intros []..].
Qed.

Lemma sorted_bucket_proper (b1 b2 : list string) :
  b1 ≡ₚ b2 →
  match b1 with [] => None | m :: b => Some (sorted (m :: b)) end
  = match b2 with [] => None | m :: b => Some (sorted (m :: b)) end.
Proof.
  intros Hp. destruct b1 as [|m1 b1], b2 as [|m2 b2].
  - done.
  - by apply Permutation_nil_cons in Hp.
  - symmetry in Hp. by apply Permutation_nil_cons in Hp.
  - f_equal. by apply sorted_proper.
Qed.

Lemma versions_in_order_spec salt_version (minions : gmap string string)
    (ks : list string) (order : gmap Z (list string) → list Z) :
  (∀ m, m ∈ ks → m ∈ dom minions) →
  (∀ vs, order vs ≡ₚ dict_keys vs) →
  ∃ ret,
    versions_in_order salt_version minions ks order = Ok ret ∧
    (∀ c, ret !! bucket_label c
          = match agents_comparing minions (normalized_version salt_version) c ks with
            | [] => None
            | m :: b => Some (sorted (m :: b))
            end) ∧
    (∀ s, (∀ c, s ≠ bucket_label c) → ret !! s = None).
Proof.
  intros Hks Horder. unfold versions_in_order.
  set (mv := normalized_version salt_version).
  destruct (classify_loop minions mv ks ∅) as (vs & -> & Hvs & Hvs_other).
  { intros m Hm. by apply elem_of_dom, Hks. }
  cbn [bind].
  assert (∀ c, vs !! int_of_comparison c
               = match agents_comparing minions mv c ks with
                 | [] => None
                 | m :: b => Some (m :: b)
                 end) as Hvs'.
  { intros c. rewrite Hvs, lookup_empty, extend_None.
    by destruct (agents_comparing _ _ _ _). }
  assert (∀ k, k ∈ order vs ↔ is_Some (vs !! k)) as Hin_order.
  { intros k. by rewrite Horder, elem_of_dict_keys, elem_of_dom. }
  destruct (label_loop vs (order vs) ∅) as (ret & -> & Hret & Hother).
  { rewrite Horder. apply NoDup_dict_keys. }
  { intros k Hk. apply Hin_order in Hk. split; [done|].
    destruct (decide (k = int_of_comparison Lt)) as [->|HLt]; [by exists Lt|].
    destruct (decide (k = int_of_comparison Eq)) as [->|HEq]; [by exists Eq|].
    destruct (decide (k = int_of_comparison Gt)) as [->|HGt]; [by exists Gt|].
    rewrite Hvs_other, lookup_empty in Hk; [by destruct Hk|].
    by intros []. }
  exists ret. split; [done|]. split.
  - intros c. rewrite Hret, lookup_empty, Hvs'.
    destruct (agents_comparing minions mv c ks) as [|m b] eqn:Hb.
    + rewrite decide_False; [done|]. rewrite Hin_order, Hvs', Hb. by intros [? ?].
    + rewrite decide_True.
      * simpl. rewrite extend_None.
        destruct (sorted (m :: b)) as [|x l] eqn:Hs; [|done].
        pose proof (sorted_Permutation (m :: b)) as Hp. rewrite Hs in Hp.
        by apply Permutation_nil_cons in Hp.
      * rewrite Hin_order, Hvs', Hb. by eexists.
  - intros s Hs. by rewrite Hother, lookup_empty.
Qed.

(** X9: the dict [versions] returns does not depend on the order in
    which the reply and the intermediate dict are iterated: visiting the
    agents and the outcomes in any order gives the same result. *)
Theorem versions_iteration_order (salt_version : string)
    (minions : gmap string string) (ks : list string)
    (order : gmap Z (list string) → list Z) (w : world) :
  ks ≡ₚ dict_keys minions →
  (∀ vs, order vs ≡ₚ dict_keys vs) →
  versions_in_order salt_version minions ks order
  = (versions salt_version minions w).1.
Proof.
  intros Hks Horder.
  destruct (versions_in_order_spec salt_version minions ks order)
    as (ret1 & -> & Hret1 & Hother1); [|done|].
  { intros m Hm. rewrite Hks in Hm. by apply elem_of_dict_keys. }
  destruct (versions_spec salt_version minions w) as (ret2 & -> & Hret2 & Hother2).
  simpl. f_equal. apply labelled_dict_eq; [|done..].
  intros c. rewrite Hret1, Hret2. apply sorted_bucket_proper.
  unfold agents_comparing. by rewrite Hks.
Qed.

Lemma versions_iteration_order_witness :
  versions_in_order "2016.3.0"
    {[ "x" := "2016.3.0"; "y" := "2015.8.0"; "z" := "2016.3.0" ]}
    (reverse (dict_keys
       ({[ "x" := "2016.3.0"; "y" := "2015.8.0"; "z" := "2016.3.0" ]}
          : gmap string string)))
    (λ vs, reverse (dict_keys vs))
  = (versions "2016.3.0"
       {[ "x" := "2016.3.0"; "y" := "2015.8.0"; "z" := "2016.3.0" ]}
       (World (Dir [] []) [] [] [] [])).1.
Proof.
  apply versions_iteration_order.
  - apply reverse_Permutation.
  - intros vs. apply reverse_Permutation.
Defined.

Lemma string_compare_refl (s : string) : String.compare s s = Eq.
Proof.
  induction s as [|c s IH]; simpl; [done|].
  unfold Ascii.compare. by rewrite N.compare_refl.
Qed.

Lemma versions_lookup_nonempty salt_version minions w ret label l :
  (versions salt_version minions w).1 = Ok ret →
  ret !! label = Some l → l ≠ [].
Proof.
  intros Hv Hl.
  destruct (versions_lookup_Some _ _ _ _ _ _ Hv Hl) as (c & -> & ->).
  destruct (versions_spec salt_version minions w) as (ret' & Hv' & Hret & _).
  rewrite Hv' in Hv. simpl in Hv. injection Hv as ->.
  rewrite Hret in Hl.
  destruct (agents_comparing _ _ _ _) as [|m b]; [done|].
  intros Hnil. pose proof (sorted_Permutation (m :: b)) as Hp.
  rewrite Hnil in Hp. by apply Permutation_nil_cons in Hp.
Qed.

(** X10: the dict [versions] returns has no empty bucket: a label without
    agent is not a key of it, and the dict is empty exactly when no agent
    answered. *)
Theorem versions_no_empty_bucket (salt_version : string)
    (minions : gmap string string) (w : world) :
  ∃ ret,
    (versions salt_version minions w).1 = Ok ret ∧
    (∀ label l, ret !! label = Some l → l ≠ []) ∧
    (ret = ∅ ↔ minions = ∅).
Proof.
  pose proof (versions_lookup_nonempty salt_version minions w) as Hne.
  pose proof (versions_bucket_of salt_version minions w) as Hof.
  destruct (versions_spec salt_version minions w) as (ret & Hv & Hret & Hother).
  rewrite Hv in Hne, Hof. simpl in Hne, Hof.
  exists ret. rewrite Hv. split; [done|]. split.
  - intros label l. by apply Hne.
  - split.
    + intros ->. apply map_empty. intros m.
      destruct (minions !! m) as [reported|] eqn:Hm; [|done].
      destruct (Hof m reported Hm) as (ret' & l & [= <-] & Hl & _).
      by rewrite lookup_empty in Hl.
    + intros ->. apply labelled_dict_eq; [|done|by intros; rewrite lookup_empty].
      intros c. rewrite Hret, lookup_empty.
      destruct (agents_comparing _ _ _ _) as [|m b] eqn:Hb; [done|].
      assert (m ∈ agents_comparing ∅ (normalized_version salt_version) c
                    (dict_keys (∅ : gmap string string))) as Hin
        by (rewrite Hb; by left).
      apply elem_of_agents_comparing in Hin as (? & Hm & _).
      by rewrite lookup_empty in Hm.
Qed.

(** X11: the agents under 'Up to date' are exactly those whose normalised
    version is the normalised version of the controller; an agent that
    reports the version of the controller itself is among them. *)
Theorem versions_up_to_date_iff (salt_version : string)
    (minions : gmap string string) (w : world) :
  ∃ ret,
    (versions salt_version minions w).1 = Ok ret ∧
    (∀ m, (∃ l, ret !! "Up to date" = Some l ∧ m ∈ l)
          ↔ ∃ reported, minions !! m = Some reported ∧
              normalized_version reported = normalized_version salt_version) ∧
    (∀ m, minions !! m = Some salt_version →
          ∃ l, ret !! "Up to date" = Some l ∧ m ∈ l).
Proof.
  pose proof (versions_lookup_Some salt_version minions w) as Hsome.
  pose proof (versions_bucket_of salt_version minions w) as Hof.
  destruct (versions_spec salt_version minions w) as (ret & Hv & _).
  rewrite Hv in Hsome, Hof. simpl in Hsome, Hof.
  exists ret. rewrite Hv. split; [done|].
  assert (∀ m, (∃ l, ret !! "Up to date" = Some l ∧ m ∈ l)
               ↔ ∃ reported, minions !! m = Some reported ∧
                   normalized_version reported = normalized_version salt_version)
    as Hiff.
  { intros m. split.
    - intros (l & Hl & Hin).
      destruct (Hsome ret _ l eq_refl Hl) as (c & Hc & ->).
      apply (bucket_label_inj Eq) in Hc as <-.
      apply elem_of_sorted, elem_of_agents_comparing in Hin
        as (reported & Hm & Hcmp).
      exists reported. split; [done|]. by apply String.compare_eq_iff.
    - intros (reported & Hm & Heq).
      destruct (Hof m reported Hm) as (ret' & l & [= <-] & Hl & Hin & _).
      rewrite Heq in Hl.
      rewrite string_compare_refl in Hl. by exists l. }
  split; [done|]. intros m Hm. apply Hiff. by exists salt_version.
Qed.

(** X12: [versions] renders the dict it returns, once, and changes
    nothing else; the dict is the same in whatever world it is
    computed. *)
Theorem versions_renders_result (salt_version : string)
    (minions : gmap string string) (w : world) :
  ∃ ret,
    versions salt_version minions w
    = (Ok ret,
       World (pki w) (removes w) (spawned w) (displayed w ++ [VDict ret])
         (stdout w)) ∧
    ∀ w', (versions salt_version minions w').1 = Ok ret.
Proof.
  destruct (versions_spec salt_version minions w) as (ret & Hv & Hret & Hother).
  exists ret. split; [done|]. intros w'.
  destruct (versions_spec salt_version minions w') as (ret' & -> & Hret' & Hother').
  simpl. f_equal. apply labelled_dict_eq; [|done..].
  intros c. by rewrite Hret, Hret'.
Qed.

(** X13: two agents whose versions have the same normal form, such as
    two builds that differ in their third segment only, are in the same
    bucket. *)
Theorem versions_same_normal_form (salt_version : string)
    (minions : gmap string string) (w : world) (m1 m2 reported1 reported2 : string) :
  minions !! m1 = Some reported1 →
  minions !! m2 = Some reported2 →
  normalized_version reported1 = normalized_version reported2 →
  ∃ ret label l,
    (versions salt_version minions w).1 = Ok ret ∧
    ret !! label = Some l ∧ m1 ∈ l ∧ m2 ∈ l.
Proof.
  intros Hm1 Hm2 Heq.
  destruct (versions_bucket_of salt_version minions w m1 reported1 Hm1)
    as (ret & l & Hv & Hl & Hin1 & _).
  destruct (versions_bucket_of salt_version minions w m2 reported2 Hm2)
    as (ret' & l' & Hv' & Hl' & Hin2 & _).
  rewrite Hv in Hv'. injection Hv' as <-.
  rewrite <-Heq, Hl in Hl'. injection Hl' as <-.
  eauto 10.
Qed.

Lemma versions_same_normal_form_witness :
  ∃ ret label l,
    (versions "2016.3.0"
       {[ "a" := "2016.3.1-5-abc"; "b" := "2016.3.1-5-def" ]}
       (World (Dir [] []) [] [] [] [])).1 = Ok ret ∧
    ret !! label = Some l ∧ "a" ∈ l ∧ "b" ∈ l.
Proof.
  apply (versions_same_normal_form "2016.3.0"
           {[ "a" := "2016.3.1-5-abc"; "b" := "2016.3.1-5-def" ]}
           (World (Dir [] []) [] [] [] []) "a" "b"
           "2016.3.1-5-abc" "2016.3.1-5-def");
    vm_compute; reflexivity.
Defined.

(** X14: normalising the version of the controller and the versions of
    the agents beforehand does not change the dict [versions] returns. *)
Theorem versions_of_normalized (salt_version : string)
    (minions : gmap string string) (w : world) :
  (versions (normalized_version salt_version) (normalized_version <$> minions) w).1
  = (versions salt_version minions w).1.
Proof.
  destruct (versions_spec (normalized_version salt_version)
              (normalized_version <$> minions) w) as (ret1 & -> & Hret1 & Hother1).
  destruct (versions_spec salt_version minions w) as (ret2 & -> & Hret2 & Hother2).
  simpl. f_equal. apply labelled_dict_eq; [|done..].
  intros c. rewrite Hret1, Hret2. apply sorted_bucket_proper.
  apply NoDup_Permutation.
  - apply NoDup_filter, NoDup_dict_keys.
  - apply NoDup_filter, NoDup_dict_keys.
  - intros m. rewrite !elem_of_agents_comparing. split.
    + intros (reported' & Hm & Hc). rewrite lookup_fmap in Hm.
      destruct (minions !! m) as [reported|]; simplify_eq/=.
      exists reported. by rewrite !normalized_version_twice.
    + intros (reported & Hm & Hc). exists (normalized_version reported).
      rewrite lookup_fmap, Hm. by rewrite !normalized_version_twice.
Qed.

(** ** key_regen *)








(** *** The paths of the walk *)

Lemma starts_refl (s : string) : starts s s.
Proof.
  exists "". induction s as [|c s IH]; [done|].
  change (String c s +:+ "") with (String c (s +:+ "")). by rewrite <-IH.
Qed.

Lemma starts_app (a b : string) : starts a (a +:+ b).
Proof. by exists b. Qed.

Lemma starts_trans (a b c : string) : starts a b → starts b c → starts a c.
Proof.
  intros [r1 ->] [r2 ->]. exists (r1 +:+ r2). apply app_assoc_string.
Qed.

Lemma entry_name_startswith_slash name :
  entry_name name → startswith_slash name = false.
Proof.
  intros [Hne Hfree]. destruct name as [|c name]; [by destruct Hne|].
  destruct Hfree as [Hc _]. simpl. by apply bool_decide_eq_false.
Qed.




(** Joining a directory with the names of its entries puts one and the
    same prefix before them. *)
Lemma os_path_join_base top :
  ∃ base, starts top base ∧
    ∀ name, startswith_slash name = false → os_path_join top name = base +:+ name.
Proof.
  destruct (bool_decide (top = "") || endswith_slash top) eqn:Hb.
  - exists top. split; [apply starts_refl|]. intros name Hn.
    unfold os_path_join. by rewrite Hn, Hb.
  - exists (top +:+ "/"). split; [apply starts_app|]. intros name Hn.
    unfold os_path_join. rewrite Hn, Hb. by rewrite app_assoc_string.
Qed.


Lemma entry_names_Dir files subdirs :
  entry_names (Dir files subdirs)
  ↔ Forall entry_name files ∧
    Forall (λ nd, entry_name nd.1 ∧ entry_names nd.2) subdirs.
Proof.
  cbn [entry_names]. rewrite Forall_fmap.
  split; intros [? Hs]; (split; [done|]);
    eapply Forall_impl; [exact Hs| |exact Hs|]; by intros [].
Qed.


Lemma elem_of_concat {A} (x : A) (ls : list (list A)) :
  x ∈ concat ls ↔ ∃ l, x ∈ l ∧ l ∈ ls.
Proof.
  induction ls as [|l ls IH]; simpl.
  - split; [by intros ?%elem_of_nil|]. by intros (? & _ & ?%elem_of_nil).
  - rewrite elem_of_app, IH. split.
    + intros [?|(l' & ? & ?)]; [exists l; split; [done|by left]|].
      exists l'. split; [done|by right].
    + intros (l' & Hx & [->|?]%elem_of_cons); [by left|right; eauto].
Qed.

Lemma elem_of_tree_files top files subdirs p :
  p ∈ tree_files top (Dir files subdirs)
  ↔ (∃ f, f ∈ files ∧ p = os_path_join top f)
    ∨ ∃ name d, (name, d) ∈ subdirs ∧ p ∈ tree_files (os_path_join top name) d.
Proof.
  cbn [tree_files]. rewrite elem_of_app, list_elem_of_fmap, elem_of_concat.
  split.
  - intros [(f & -> & Hf)|(l & Hp & Hl)]; [left; eauto|right].
    apply list_elem_of_fmap in Hl as ([name d] & -> & Hnd). eauto.
  - intros [(f & Hf & ->)|(name & d & Hnd & Hp)]; [left; eauto|right].
    eexists. split; [exact Hp|].
    apply list_elem_of_fmap. by exists (name, d).
Qed.

(** Every file of a tree lies below the top of the tree. *)
Lemma tree_files_starts t :
  ∀ top p, entry_names t → p ∈ tree_files top t → starts top p.
Proof.
  induction t as [files subdirs IH] using dirtree_ind. intros top p.
  rewrite entry_names_Dir, elem_of_tree_files. intros [Hfiles Hsubdirs].
  destruct (os_path_join_base top) as (base & Hbase & Hjoin).
  intros [(f & Hf & ->)|(name & d & Hnd & Hp)].
  - rewrite Forall_forall in Hfiles.
    rewrite Hjoin by (by apply entry_name_startswith_slash, Hfiles).
    eapply starts_trans; [exact Hbase|apply starts_app].
  - rewrite Forall_forall in IH, Hsubdirs.
    destruct (Hsubdirs _ Hnd) as [Hname Hd]. simpl in *.
    apply (IH _ Hnd) in Hp; [|done]. simpl in Hp.
    rewrite Hjoin in Hp by (by apply entry_name_startswith_slash).
    eapply starts_trans; [exact Hbase|].
    eapply starts_trans; [apply starts_app|exact Hp].
Qed.

(** X18: in a tree whose entries have the names of directory entries,
    every path [key_regen] hands to [os.remove] starts with the pki
    directory. *)
Theorem key_regen_below_pki_dir {V} (remove_fails : string → bool)
    (minions : gmap string V) (pki_dir : string) (w : world) :
  entry_names (pki w) →
  ∃ log,
    removes (key_regen remove_fails minions pki_dir w).2 = removes w ++ log ∧
    ∀ p, p ∈ log → starts pki_dir p.
Proof.
  intros Hnames.
  destruct (key_regen_spec remove_fails minions pki_dir w) as (t' & -> & _).
  exists (tree_files pki_dir (pki w)). split; [done|].
  intros p. by apply tree_files_starts.
Qed.

Lemma key_regen_below_pki_dir_witness :
  ∃ log,
    removes (key_regen (V:=bool) (λ _, false) ∅ "/etc/salt/pki"
               (World (Dir ["master.pem"] [("minions", Dir ["a"; "b"] [])])
                  [] [] [] [])).2 = [] ++ log ∧
    ∀ p, p ∈ log → starts "/etc/salt/pki" p.
Proof.
  apply (key_regen_below_pki_dir (V:=bool) (λ _, false) ∅ "/etc/salt/pki"
           (World (Dir ["master.pem"] [("minions", Dir ["a"; "b"] [])])
              [] [] [] [])).
  simpl. unfold entry_name. repeat constructor; simpl; try discriminate.
Defined.






